(** * www/Media.js: the registry, the command dispatcher and the status
    demultiplexer of the Cordova media plugin, embedded in Rocq.

    The JavaScript module keeps a process-wide object [mediaObjects] that maps
    generated ids to [Media] objects, builds every public method with the
    higher-order wrapper [mediaExec], and receives status events through
    [Media.onStatus].  The embedding keeps that shape:

    - JavaScript values are the inductive [value]; numbers are IEEE 754
      binary64 data ([spec_float]), compared with [SFeqb];
    - [Media] objects live in a heap of mutable records addressed by
      locations, because the closures handed to the bridge keep a reference
      to the object itself, registered or not;
    - [mediaObjects] is an association list in insertion order; a property
      read [mediaObjects[id]] also finds the names the object inherits from
      [Object.prototype], and [for (var k in mediaObjects)] enumerates the
      keys that are array indices first;
    - every effect of the module (a bridge call, a call of a user function,
      a [console.error], an assignment to a property of an object inherited
      from [Object.prototype]) is appended to one [trace], in program order;
    - a JavaScript exception is the [Throw] outcome of the monad [M]. *)

From Stdlib Require Import ZArith Floats.SpecFloat.
From stdpp Require Import base strings list pretty.

Open Scope string_scope.
Open Scope list_scope.

(** ** Values *)

(** A JavaScript number is a binary64 float. [num_of_Z] is the float denoted
    by an integer literal of the source. *)
Definition number : Type := spec_float.

Definition num_of_Z (z : Z) : number := binary_normalize 53 1024 z 0 false.

Definition NaN : number := S754_nan.

(** User functions and plain objects are opaque: a function is known by a
    name only, and calling it is recorded in the trace. *)
Definition fn : Type := nat.
Definition objref : Type := nat.

Inductive value : Type :=
| VUndefined
| VNull
| VBool (b : bool)
| VNum (n : number)
| VStr (s : string)
| VObj (o : objref)
| VFun (f : fn).

(** What [ToPrimitive] makes of an object, and the hint it is given:
    [Number(v)] asks for a number, [==] states no preference. *)
Inductive primitive : Type :=
| PUndefined
| PNull
| PBool (b : bool)
| PNum (n : number)
| PStr (s : string).

Inductive hint : Type := HintDefault | HintNumber.

(** The natural number written by a string of decimal digits. *)
Fixpoint digits_value (s : string) (acc : N) : option N :=
  match s with
  | EmptyString => Some acc
  | String c s' =>
      let n := Ascii.N_of_ascii c in
      if (48 <=? n)%N && (n <=? 57)%N
      then digits_value s' (acc * 10 + (n - 48))%N
      else None
  end.

(** [ToBoolean], as applied by [if (v)] and [v || w]. *)
Definition truthy (v : value) : bool :=
  match v with
  | VUndefined | VNull => false
  | VBool b => b
  | VNum (S754_zero _) | VNum S754_nan => false
  | VNum _ => true
  | VStr s => negb (String.eqb s "")
  | VObj _ | VFun _ => true
  end.

Definition is_function (v : value) : bool :=
  match v with VFun _ => true | _ => false end.

Definition is_nullish (v : value) : bool :=
  match v with VUndefined | VNull => true | _ => false end.

Definition is_string (v : value) : bool :=
  match v with VStr _ => true | _ => false end.

(** [args[i]]: reading past the end of the arguments array gives
    [undefined]. *)
Definition arg (args : list value) (i : nat) : value :=
  nth i args VUndefined.

Section Conversions.

(** [Number] applied to a string parses a numeric literal; the parser is the
    engine's, and is taken as given. *)
Variable StringToNumber : string -> number.

(** An object, and a function is one, is converted through [ToPrimitive]:
    its [valueOf] and [toString] decide ([[4]] gives the string "4", a plain
    object "[object Object]").  The conversion is the engine's and the
    object's, and is taken as given; it is applied to objects only, and is
    taken to end with a primitive value. *)
Variable ToPrimitive : hint -> value -> primitive.

(** [ToNumber] of a primitive value. *)
Definition primitive_number (p : primitive) : number :=
  match p with
  | PUndefined => NaN
  | PNull => num_of_Z 0
  | PBool true => num_of_Z 1
  | PBool false => num_of_Z 0
  | PNum n => n
  | PStr s => StringToNumber s
  end.

(** [Number(v)]. *)
Definition Number (v : value) : number :=
  match v with
  | VUndefined => NaN
  | VNull => num_of_Z 0
  | VBool true => num_of_Z 1
  | VBool false => num_of_Z 0
  | VNum n => n
  | VStr s => StringToNumber s
  | VObj _ | VFun _ => primitive_number (ToPrimitive HintNumber v)
  end.

(** [p == n] for a primitive [p] and a number [n]: [null] and [undefined]
    equal only each other, every other operand is converted to a number. *)
Definition primitive_eq_number (p : primitive) (n : number) : bool :=
  match p with
  | PUndefined | PNull => false
  | _ => SFeqb (primitive_number p) n
  end.

(** [v == n] for a number [n]; an object is first made a primitive. *)
Definition loose_eq_number (v : value) (n : number) : bool :=
  match v with
  | VUndefined | VNull => false
  | VBool _ | VNum _ | VStr _ => SFeqb (Number v) n
  | VObj _ | VFun _ => primitive_eq_number (ToPrimitive HintDefault v) n
  end.

End Conversions.

(** [v === n] for a number [n], the comparison made by [switch]. *)
Definition strict_eq_number (v : value) (n : number) : bool :=
  match v with
  | VNum m => SFeqb m n
  | _ => false
  end.

(** ** Media objects, callbacks and the state of the module *)

Definition loc : Type := nat.

Record Media : Type := mkMedia {
  m_id : string;
  m_src : value;
  successCallback : value;
  errorCallback : value;
  statusCallback : value;
  _duration : value;
  _position : value
}.

Definition set_duration (v : value) (m : Media) : Media :=
  mkMedia (m_id m) (m_src m) (successCallback m) (errorCallback m)
          (statusCallback m) v (_position m).

Definition set_position (v : value) (m : Media) : Media :=
  mkMedia (m_id m) (m_src m) (successCallback m) (errorCallback m)
          (statusCallback m) (_duration m) v.

(** What the module passes to the bridge as a success or error callback:
    either a value it was given (a user function, [null], [undefined]) or
    one of the three closures the module itself builds.  A closure captures
    the object [player] and the arguments array [args] of the call. *)
Inductive callback : Type :=
| CbValue (v : value)
| CbStopSuccess (player : loc)
| CbSeekToSuccess (player : loc) (args : list value)
| CbGetCurrentPositionSuccess (player : loc) (args : list value).

Inductive event : Type :=
| EvExec (success error : callback) (service action : string)
         (args : list value)
| EvCall (f : fn) (args : list value)
| EvConsoleError (text : string) (operand : value)
| EvAssignInherited (name field : string) (v : value).

Inductive exn : Type :=
| TypeError (culprit : value)
| Error (message : string).

Record state : Type := mkState {
  mediaObjects : list (string * loc);
  heap : list Media;
  trace : list event;
  uuid_calls : nat;
  console_error : bool
}.

Definition with_mediaObjects (r : list (string * loc)) (st : state) : state :=
  mkState r (heap st) (trace st) (uuid_calls st) (console_error st).

Definition with_heap (h : list Media) (st : state) : state :=
  mkState (mediaObjects st) h (trace st) (uuid_calls st) (console_error st).

Definition with_trace (t : list event) (st : state) : state :=
  mkState (mediaObjects st) (heap st) t (uuid_calls st) (console_error st).

Definition with_uuid_calls (n : nat) (st : state) : state :=
  mkState (mediaObjects st) (heap st) (trace st) n (console_error st).

(** *** The registry object

    [mediaObjects] is a plain object.  The association list holds its own
    properties, in the order they were added; [reg_lookup], [reg_set] and
    [reg_delete] act on those.  What a property read finds beyond them, in
    [Object.prototype], is [inherited_name] below. *)
Fixpoint reg_lookup (k : string) (r : list (string * loc)) : option loc :=
  match r with
  | [] => None
  | (k', l) :: r' => if String.eqb k k' then Some l else reg_lookup k r'
  end.

(** [r[k] = l]: an existing property keeps its place, a new one is added
    last. *)
Fixpoint reg_set (k : string) (l : loc) (r : list (string * loc))
  : list (string * loc) :=
  match r with
  | [] => [(k, l)]
  | (k', l') :: r' =>
      if String.eqb k k' then (k, l) :: r' else (k', l') :: reg_set k l r'
  end.

(** [delete r[k]]. *)
Fixpoint reg_delete (k : string) (r : list (string * loc))
  : list (string * loc) :=
  match r with
  | [] => []
  | (k', l) :: r' =>
      if String.eqb k k' then reg_delete k r' else (k', l) :: reg_delete k r'
  end.

Definition reg_keys (r : list (string * loc)) : list string := r.*1.

(** The properties of [Object.prototype], as the language defines it, user
    additions apart: a plain object has them all by inheritance, and none
    of them is enumerable. *)
Definition Object_prototype_names : list string :=
  ["constructor"; "hasOwnProperty"; "isPrototypeOf"; "propertyIsEnumerable";
   "toLocaleString"; "toString"; "valueOf"; "__proto__"; "__defineGetter__";
   "__defineSetter__"; "__lookupGetter__"; "__lookupSetter__"].

Definition inherited_name (k : string) : bool :=
  existsb (String.eqb k) Object_prototype_names.

(** A key is an array index when it is the canonical decimal writing of an
    integer below 2^32 - 1. *)
Definition array_index (k : string) : option N :=
  match digits_value k 0 with
  | Some n =>
      if String.eqb (pretty n) k && (n <? 4294967295)%N then Some n else None
  | None => None
  end.

(** The order of [for (var k in r)]: the array indices first, in ascending
    order, then the other keys in the order they were added. *)
Fixpoint insert_index (n : N) (e : string * loc)
  (l : list (N * (string * loc))) : list (N * (string * loc)) :=
  match l with
  | [] => [(n, e)]
  | (m, e') :: l' =>
      if (n <=? m)%N then (n, e) :: (m, e') :: l'
      else (m, e') :: insert_index n e l'
  end.

Fixpoint index_entries (r : list (string * loc)) : list (N * (string * loc)) :=
  match r with
  | [] => []
  | e :: r' =>
      match array_index e.1 with
      | Some n => insert_index n e (index_entries r')
      | None => index_entries r'
      end
  end.

Fixpoint other_entries (r : list (string * loc)) : list (string * loc) :=
  match r with
  | [] => []
  | e :: r' =>
      match array_index e.1 with
      | Some _ => other_entries r'
      | None => e :: other_entries r'
      end
  end.

Definition for_in_entries (r : list (string * loc)) : list (string * loc) :=
  (index_entries r).*2 ++ other_entries r.

Definition for_in_keys (r : list (string * loc)) : list string :=
  (for_in_entries r).*1.

(** ** The monad of the module: state and exceptions *)

Inductive result (A : Type) : Type :=
| Normal (a : A) (st : state)
| Throw (e : exn) (st : state).

Arguments Normal {A} a st.
Arguments Throw {A} e st.

Definition M (A : Type) : Type := state -> result A.

Definition ret {A : Type} (a : A) : M A := fun st => Normal a st.

Definition bind {A B : Type} (m : M A) (k : A -> M B) : M B :=
  fun st =>
    match m st with
    | Normal a st' => k a st'
    | Throw e st' => Throw e st'
    end.

Declare Scope js_scope.
Delimit Scope js_scope with js.
Notation "'let*' x ':=' m 'in' k" := (bind m (fun x => k))
  (at level 10, x name, m at level 100, k at level 200) : js_scope.
Notation "m ;; k" := (bind m (fun _ => k))
  (at level 100, k at level 200, right associativity) : js_scope.
Open Scope js_scope.

Definition gets {A : Type} (f : state -> A) : M A := fun st => Normal (f st) st.

Definition modify (f : state -> state) : M unit := fun st => Normal tt (f st).

Definition throw {A : Type} (e : exn) : M A := fun st => Throw e st.

Definition emit (ev : event) : M unit :=
  modify (fun st => with_trace (trace st ++ [ev]) st).

Definition when (b : bool) (m : M unit) : M unit := if b then m else ret tt.

(** *** Objects in the heap *)

#[local] Instance Media_inhabited : Inhabited Media :=
  populate (mkMedia "" VUndefined VUndefined VUndefined VUndefined
                    VUndefined VUndefined).

(** Reading the object behind a reference.  A JavaScript reference always
    has its object; [registry_wf] below says so of the references kept in
    the registry. *)
Definition deref (l : loc) : M Media := gets (fun st => heap st !!! l).

Definition update (l : loc) (f : Media -> Media) : M unit :=
  modify (fun st => with_heap (<[l := f (heap st !!! l)]> (heap st)) st).

(** [new]: a fresh object is placed at the end of the heap. *)
Definition alloc (m : Media) : M loc :=
  fun st => Normal (length (heap st)) (with_heap (heap st ++ [m]) st).

(** *** Calls *)

(** [f(args)] for a value [f] supplied by the user.  A function is called:
    the call is recorded in the trace, its result is used nowhere in the
    module, and it is taken to return normally without calling back into
    the module.  Anything else is not callable. *)
Definition call (f : value) (args : list value) : M unit :=
  match f with
  | VFun g => emit (EvCall g args)
  | _ => throw (TypeError f)
  end.

(** [cordova/exec]: the bridge to the native layer.  A call hands the
    command and its two callbacks over and returns; the callbacks are
    invoked later, if at all, by the bridge. *)
Definition exec (success error : callback) (service action : string)
  (args : list value) : M unit :=
  emit (EvExec success error service action args).

(** [cordova/argscheck], for the specification string ['sFFFF']: a lower-case
    letter is a required argument, an upper-case one may be [null] or
    [undefined]; [s] asks for a string and [F] for a function.  The first
    argument that does not fit is reported by a [TypeError] (the message
    [argscheck] prints before throwing is left out). *)
Inductive argspec : Type := ReqString | OptFunction.

Definition fits (c : argspec) (v : value) : bool :=
  match c with
  | ReqString => is_string v
  | OptFunction => is_nullish v || is_function v
  end.

Fixpoint checkArgs (spec : list argspec) (args : list value) : M unit :=
  match spec with
  | [] => ret tt
  | c :: spec' =>
      if fits c (arg args 0) then checkArgs spec' (tail args)
      else throw (TypeError (arg args 0))
  end.

Definition sFFFF : list argspec :=
  [ReqString; OptFunction; OptFunction; OptFunction; OptFunction].

(** ** The module *)

(** Media messages and media states. *)
Definition MEDIA_STATE : number := num_of_Z 1.
Definition MEDIA_DURATION : number := num_of_Z 2.
Definition MEDIA_POSITION : number := num_of_Z 3.
Definition MEDIA_ERROR : number := num_of_Z 9.

Definition MEDIA_NONE : number := num_of_Z 0.
Definition MEDIA_STARTING : number := num_of_Z 1.
Definition MEDIA_RUNNING : number := num_of_Z 2.
Definition MEDIA_PAUSED : number := num_of_Z 3.
Definition MEDIA_STOPPED : number := num_of_Z 4.
Definition MEDIA_MSG : list string :=
  ["None"; "Starting"; "Running"; "Paused"; "Stopped"].

(** The handle registered under [id]: the own property [id] of
    [mediaObjects], if there is one. *)
Definition get (id : string) (st : state) : option loc :=
  reg_lookup id (mediaObjects st).

(** What the property read [mediaObjects[id]] gives: the handle registered
    under [id], or else what [Object.prototype] has under that name (a
    built-in function, or [Object.prototype] itself for ["__proto__"]), or
    else [undefined]. *)
Inductive entry : Type :=
| Handle (l : loc)
| Inherited (name : string)
| Absent.

Definition mediaObjects_at (id : string) (st : state) : entry :=
  match get id st with
  | Some l => Handle l
  | None => if inherited_name id then Inherited id else Absent
  end.

(** [Media.get(id)]. *)
Definition Media_get (id : string) (st : state) : entry :=
  mediaObjects_at id st.

Section Constructor.

(** [utils.createUUID] draws a random identifier.  [createUUID n] is the
    identifier drawn by the call number [n] since the module was loaded. *)
Variable createUUID : nat -> string.

Definition utils_createUUID : M string :=
  fun st =>
    Normal (createUUID (uuid_calls st)) (with_uuid_calls (S (uuid_calls st)) st).

(** [new Media(src, successCallback, errorCallback, statusCallback,
    createdCallback)].  The object is built with all its fields at once;
    nothing can observe it between the assignments of the source. *)
Definition new_Media
  (src successCallback errorCallback statusCallback createdCallback : value)
  : M loc :=
  checkArgs sFFFF [src; successCallback; errorCallback; statusCallback;
                   createdCallback];;
  let* id := utils_createUUID in
  let* this := alloc (mkMedia id src successCallback errorCallback
                              statusCallback (VNum (num_of_Z (-1)))
                              (VNum (num_of_Z (-1)))) in
  modify (fun st => with_mediaObjects (reg_set id this (mediaObjects st)) st);;
  exec (CbValue createdCallback) (CbValue errorCallback) "Media" "create"
       [VStr id; src];;
  ret this.

End Constructor.

(** *** The command dispatcher *)

(** An adapter receives the object the method was called on and the
    arguments array of the call. *)
Definition adapter (A : Type) : Type := loc -> list value -> M A.

Definition nothing : adapter callback := fun _ _ => ret (CbValue VNull).

(** [(g || nothing)] for an adapter [g] that may be missing. *)
Definition or_nothing (g : option (adapter callback)) : adapter callback :=
  match g with
  | Some g => g
  | None => nothing
  end.

(** [mediaExec]: the method built from a native method name and three
    adapters.  The JavaScript arguments of [exec] are evaluated left to
    right: the success callback, the error callback, then the options. *)
Definition mediaExec (nativeMethod : string)
  (getOptions : adapter (list value))
  (getCallback getErrorCallback : option (adapter callback))
  : loc -> list value -> M unit :=
  let getCallback := or_nothing getCallback in
  let getErrorCallback := or_nothing getErrorCallback in
  fun this args =>
    let* cb := getCallback this args in
    let* ecb := getErrorCallback this args in
    let* opts := getOptions this args in
    exec cb ecb "Media" nativeMethod opts.

(** The helpers [id] and [src] of the source are [id_] and [src_] here. *)
Definition id_ : adapter (list value) :=
  fun self _ => let* o := deref self in ret [VStr (m_id o)].

Definition defaultErrorCallback : adapter callback :=
  fun self _ => let* o := deref self in ret (CbValue (errorCallback o)).

Definition oneArgument : adapter (list value) :=
  fun player args =>
    let* o := deref player in ret [VStr (m_id o); arg args 0].

Definition src_ : adapter (list value) :=
  fun player _ => let* o := deref player in ret [VStr (m_id o); m_src o].

Definition success : adapter callback :=
  fun _ args => ret (CbValue (arg args 0)).

Definition fail : adapter callback :=
  fun _ args => ret (CbValue (arg args 1)).

Definition play : loc -> list value -> M unit :=
  mediaExec "startPlayingAudio"
    (fun player args =>
       let* o := deref player in ret [VStr (m_id o); m_src o; arg args 1])
    (Some success) None.

Definition stop : loc -> list value -> M unit :=
  mediaExec "stopPlayingAudio" id_
    (Some (fun player _ => ret (CbStopSuccess player)))
    (Some defaultErrorCallback).

Definition seekTo : loc -> list value -> M unit :=
  mediaExec "seekToAudio" oneArgument
    (Some (fun player args => ret (CbSeekToSuccess player args)))
    (Some (fun _ args => ret (CbValue (arg args 2)))).

Definition pause : loc -> list value -> M unit :=
  mediaExec "pausePlayingAudio" id_ (Some nothing) (Some defaultErrorCallback).

Definition getDuration (this : loc) : M value :=
  let* o := deref this in ret (_duration o).

Definition getCurrentPosition : loc -> list value -> M unit :=
  mediaExec "getCurrentPositionAudio" id_
    (Some (fun player args => ret (CbGetCurrentPositionSuccess player args)))
    (Some fail).

Definition startRecord : loc -> list value -> M unit :=
  mediaExec "startRecordingAudio" src_ (Some nothing)
    (Some defaultErrorCallback).

Definition stopRecord : loc -> list value -> M unit :=
  mediaExec "stopRecordingAudio" id_ (Some nothing) (Some defaultErrorCallback).

Definition pauseRecord : loc -> list value -> M unit :=
  mediaExec "pauseRecordingAudio" id_ (Some nothing)
    (Some defaultErrorCallback).

Definition resumeRecord : loc -> list value -> M unit :=
  mediaExec "resumeRecordingAudio" id_ (Some nothing)
    (Some defaultErrorCallback).

(** The function given as success adapter deletes the registry entry when
    the adapter is applied, and returns nothing: the success callback handed
    to the bridge is [undefined]. *)
Definition release : loc -> list value -> M unit :=
  mediaExec "release" id_
    (Some (fun self _ =>
       let* o := deref self in
       modify (fun st =>
         with_mediaObjects (reg_delete (m_id o) (mediaObjects st)) st);;
       ret (CbValue VUndefined)))
    (Some defaultErrorCallback).

Definition setVolume : loc -> list value -> M unit :=
  mediaExec "setVolume" oneArgument None None.

Definition setRate : loc -> list value -> M unit :=
  mediaExec "setRate" oneArgument None None.

Definition getCurrentAmplitude : loc -> list value -> M unit :=
  mediaExec "getCurrentAmplitudeAudio" id_ (Some success) (Some fail).

(** [cb(args)]: what happens when the bridge, or anyone holding the
    callback, applies it. *)
Definition apply_callback (cb : callback) (args : list value) : M unit :=
  match cb with
  | CbValue v => call v args
  | CbStopSuccess player =>
      update player (set_position (VNum (num_of_Z 0)))
  | CbSeekToSuccess player args' =>
      update player (set_position (arg args 0));;
      call (arg args' 1) [arg args 0]
  | CbGetCurrentPositionSuccess player args' =>
      update player (set_position (arg args 0));;
      call (arg args' 0) [arg args 0]
  end.

(** [mediaObjects[k].method()]: a method call on a registry entry.  Where
    [k] is not registered the call fails: [undefined] has no method, and
    what [Object.prototype] has under [k] has no property [method]. *)
Definition call_method (method : loc -> list value -> M unit) (k : string)
  : M unit :=
  let* o := gets (get k) in
  match o with
  | Some l => method l []
  | None => throw (TypeError VUndefined)
  end.

(** [Media.forceStop].  [for (var k in mediaObjects)] visits the keys the
    object has when the loop starts, in the order of [for_in_keys], and
    skips a key that was deleted before its turn. *)
Fixpoint forceStop_loop (keys : list string) : M unit :=
  match keys with
  | [] => ret tt
  | k :: keys' =>
      let* o := gets (get k) in
      match o with
      | None => forceStop_loop keys'
      | Some _ =>
          call_method stop k;;
          call_method release k;;
          modify (fun st =>
            with_mediaObjects (reg_delete k (mediaObjects st)) st);;
          forceStop_loop keys'
      end
  end.

Definition forceStop : M unit :=
  let* keys := gets (fun st => for_in_keys (mediaObjects st)) in
  forceStop_loop keys.

(** *** The status demultiplexer *)

Section Status.

Variable StringToNumber : string -> number.
Variable ToPrimitive : hint -> value -> primitive.

(** [console.error(text + operand)], guarded by [if (console.error)]. *)
Definition console_error_log (text : string) (operand : value) : M unit :=
  let* available := gets console_error in
  when available (emit (EvConsoleError text operand)).

(** [if (media.callback) { media.callback(args) }]: the property is read
    from the object at the time of the test. *)
Definition call_if_set (field : Media -> value) (media : loc)
  (args : list value) : M unit :=
  let* o := deref media in
  when (truthy (field o)) (call (field o) args).

(** The same on what [mediaObjects[id]] gave.  An object inherited from
    [Object.prototype] has none of the three callback properties. *)
Definition call_if_set_on (field : Media -> value) (media : entry)
  (args : list value) : M unit :=
  match media with
  | Handle l => call_if_set field l args
  | Inherited _ | Absent => ret tt
  end.

(** [media.field = v].  On a handle it writes the cached value; on an
    object inherited from [Object.prototype] it adds the property to that
    object. *)
Definition assign (media : entry) (field : string) (write : value -> Media -> Media)
  (v : value) : M unit :=
  match media with
  | Handle l => update l (write v)
  | Inherited name => emit (EvAssignInherited name field v)
  | Absent => ret tt
  end.

(** [Media.onStatus(id, msgType, value)].  [if (media)] holds of every
    object, registered handle or not.  The [switch] compares [msgType] with
    [===] against the cases in the order of the source. *)
Definition onStatus (id : string) (msgType value : value) : M unit :=
  let* media := gets (mediaObjects_at id) in
  match media with
  | Handle _ | Inherited _ =>
      if strict_eq_number msgType MEDIA_STATE then
        call_if_set_on statusCallback media [value];;
        if loose_eq_number StringToNumber ToPrimitive value MEDIA_STOPPED
        then call_if_set_on successCallback media []
        else ret tt
      else if strict_eq_number msgType MEDIA_DURATION then
        assign media "_duration" set_duration value
      else if strict_eq_number msgType MEDIA_ERROR then
        call_if_set_on errorCallback media [value]
      else if strict_eq_number msgType MEDIA_POSITION then
        assign media "_position" set_position
               (VNum (Number StringToNumber ToPrimitive value))
      else
        console_error_log "Unhandled Media.onStatus :: " msgType
  | Absent =>
      console_error_log
        "Received Media.onStatus callback for unknown media :: " (VStr id)
  end.

(** An inbound channel message [{action, status: {id, msgType, value}}].
    [status] is read only when the action is ['status']; reading a property
    of a missing [status] is a [TypeError]. *)
Record status_message : Type := mkStatus {
  status_id : string;
  status_msgType : value;
  status_value : value
}.

Record message : Type := mkMessage {
  action : string;
  status : option status_message
}.

Definition onMessageFromNative (msg : message) : M unit :=
  if String.eqb (action msg) "status" then
    match status msg with
    | Some s => onStatus (status_id s) (status_msgType s) (status_value s)
    | None => throw (TypeError VUndefined)
    end
  else
    throw (Error ("Unknown media action" ++ action msg)%string).

End Status.

(** ** Well-formed states *)

(** The state of a result, whichever way the computation ended. *)
Definition state_of {A : Type} (r : result A) : state :=
  match r with
  | Normal _ st => st
  | Throw _ st => st
  end.

(** The values [argscheck] lets through as callbacks of the constructor. *)
Definition callbacks_typed (o : Media) : Prop :=
  fits OptFunction (successCallback o) = true /\
  fits OptFunction (errorCallback o) = true /\
  fits OptFunction (statusCallback o) = true.

(** Every registry entry refers to an object of the heap, stored under the
    object's own id, and an object has one entry at most. *)
Definition registry_wf (st : state) : Prop :=
  NoDup (reg_keys (mediaObjects st)) /\
  forall k l, (k, l) ∈ mediaObjects st ->
    exists o, heap st !! l = Some o /\ m_id o = k.

(** Every id of the registry was drawn by an earlier call of
    [utils.createUUID]. *)
Definition ids_drawn (createUUID : nat -> string) (st : state) : Prop :=
  forall k, k ∈ reg_keys (mediaObjects st) ->
    exists n, n < uuid_calls st /\ k = createUUID n.

(** The callbacks of every registered handle are functions or unset. *)
Definition registered_callbacks_typed (st : state) : Prop :=
  forall k l, get k st = Some l ->
    exists o, heap st !! l = Some o /\ callbacks_typed o.

(** The methods built by [mediaExec]. *)
Definition public_methods : list (loc -> list value -> M unit) :=
  [play; stop; seekTo; pause; getCurrentPosition; startRecord; stopRecord;
   pauseRecord; resumeRecord; release; setVolume; setRate;
   getCurrentAmplitude].


(** The commands [forceStop] issues for the entries [r] of a registry, in
    order: for each handle its stop command, then its release command. *)
Definition stop_then_release (h : list Media) (r : list (string * loc))
  : list event :=
  flat_map
    (fun e : string * loc =>
       [EvExec (CbStopSuccess e.2) (CbValue (errorCallback (h !!! e.2)))
               "Media" "stopPlayingAudio" [VStr (m_id (h !!! e.2))];
        EvExec (CbValue VUndefined) (CbValue (errorCallback (h !!! e.2)))
               "Media" "release" [VStr (m_id (h !!! e.2))]])
    r.

(** The state of the module when it has just been loaded. *)
Definition initial_state : state := mkState [] [] [] 0 true.

(** The cached position of the object at [l], if there is one. *)
Definition cached_position (l : loc) (st : state) : option value :=
  _position <$> heap st !! l.

(** ** Sample states

    An identifier source that never repeats itself, a reader of strings of
    decimal digits, and two states with one and two registered handles. *)
Definition sample_createUUID (n : nat) : string := "uuid-" ++ pretty n.

Definition digits_StringToNumber (s : string) : number :=
  match digits_value s 0 with
  | Some n => num_of_Z (Z.of_N n)
  | None => NaN
  end.

(** Objects for the examples: object 1 is the array [[4]], object 2 the
    array [[42]]; any other object is a plain object, and a function
    converts to its source text. *)
Definition sample_ToPrimitive (h : hint) (v : value) : primitive :=
  match v with
  | VObj 1 => PStr "4"
  | VObj 2 => PStr "42"
  | VObj _ => PStr "[object Object]"
  | _ => PStr "function () { [native code] }"
  end.

Definition song : Media :=
  mkMedia "uuid-0" (VStr "song.mp3") (VFun 1) (VFun 2) (VFun 3)
          (VNum (num_of_Z 120)) (VNum (num_of_Z 5)).

Definition memo : Media :=
  mkMedia "uuid-1" (VStr "memo.wav") VUndefined (VFun 4) VNull
          (VNum (num_of_Z (-1))) (VNum (num_of_Z (-1))).

Definition one_handle : state :=
  mkState [("uuid-0", 0)] [song] [] 1 true.


Definition two_handles : state :=
  mkState [("uuid-0", 0); ("uuid-1", 1)] [song; memo] [] 2 true.

(** ** Frames and reachable states *)

(** [o'] is the object [o] up to its cached duration and position: the id,
    the source and the three callbacks are the same. *)
Definition same_identity (o o' : Media) : Prop :=
  m_id o' = m_id o /\
  m_src o' = m_src o /\
  successCallback o' = successCallback o /\
  errorCallback o' = errorCallback o /\
  statusCallback o' = statusCallback o.

(** The heap [h'] has the objects of [h], each up to its cached values. *)
Definition handles_kept (h h' : list Media) : Prop :=
  length h' = length h /\
  forall l o, h !! l = Some o ->
    exists o', h' !! l = Some o' /\ same_identity o o'.

(** The object a callback built by the module was built for. *)
Definition closure_player (cb : callback) : option loc :=
  match cb with
  | CbValue _ => None
  | CbStopSuccess player
  | CbSeekToSuccess player _
  | CbGetCurrentPositionSuccess player _ => Some player
  end.

Definition is_call (ev : event) : bool :=
  match ev with
  | EvCall _ _ => true
  | _ => false
  end.

Definition is_exec (ev : event) : bool :=
  match ev with
  | EvExec _ _ _ _ _ => true
  | _ => false
  end.

(** [st'] differs from [st] by events that are not bridge commands. *)
Definition quiet (st st' : state) : Prop :=
  mediaObjects st' = mediaObjects st /\
  heap st' = heap st /\
  uuid_calls st' = uuid_calls st /\
  exists evs, trace st' = trace st ++ evs /\
              Forall (fun ev => is_exec ev = false) evs.

(** What a step that may write cached values and call user functions leaves
    of a state: the registry, the identifier count, the identity of every
    object, and a trace extended by events that are not bridge commands. *)
Definition cache_step (st st' : state) : Prop :=
  mediaObjects st' = mediaObjects st /\
  uuid_calls st' = uuid_calls st /\
  handles_kept (heap st) (heap st') /\
  exists evs, trace st' = trace st ++ evs /\
              Forall (fun ev => is_exec ev = false) evs.

(** The error callback of the command a method issues. *)
Definition issues_error_callback (m : loc -> list value -> M unit)
  (l : loc) (args : list value) (st : state) (e : callback) : Prop :=
  exists st' s action a,
    m l args st = Normal tt st' /\
    trace st' = trace st ++ [EvExec s e "Media" action a].

(** The success callback of the command a method issues. *)
Definition issues_success_callback (m : loc -> list value -> M unit)
  (l : loc) (args : list value) (st : state) (s : callback) : Prop :=
  exists st' e action a,
    m l args st = Normal tt st' /\
    trace st' = trace st ++ [EvExec s e "Media" action a].

(** The bridge commands of a trace. *)
Definition commands (t : list event) : list event := filter (fun ev => is_exec ev = true) t.

(** The three invariants of the module, together. *)
Definition module_invariant (createUUID : nat -> string) (st : state) : Prop :=
  registry_wf st /\ ids_drawn createUUID st /\ registered_callbacks_typed st.

Section Reachable.

Variable createUUID : nat -> string.
Variable StringToNumber : string -> number.
Variable ToPrimitive : hint -> value -> primitive.

(** The states the module goes through from the moment it is loaded, by
    its own operations: the constructor, the methods built by [mediaExec]
    on any object, [forceStop], status events and channel messages, and the
    bridge applying a callback.  Whether an operation ends normally or by an
    exception, the state it leaves is reachable. *)
Inductive reachable : state -> Prop :=
| reachable_loaded b : reachable (mkState [] [] [] 0 b)
| reachable_new st src sc ec stc cc :
    reachable st ->
    reachable (state_of (new_Media createUUID src sc ec stc cc st))
| reachable_method st m this args :
    reachable st -> m ∈ public_methods ->
    reachable (state_of (m this args st))
| reachable_forceStop st :
    reachable st -> reachable (state_of (forceStop st))
| reachable_onStatus st id msgType value :
    reachable st ->
    reachable
      (state_of (onStatus StringToNumber ToPrimitive id msgType value st))
| reachable_message st msg :
    reachable st ->
    reachable
      (state_of (onMessageFromNative StringToNumber ToPrimitive msg st))
| reachable_callback st cb args :
    reachable st -> reachable (state_of (apply_callback cb args st)).

End Reachable.

(** * Properties *)

(** ** The registry *)

Lemma reg_lookup_None k r : reg_lookup k r = None <-> k ∉ reg_keys r.
Proof.
  induction r as [|[k' l] r IH]; simpl.
  - split; [intros _; apply not_elem_of_nil | done].
  - rewrite not_elem_of_cons. destruct (String.eqb_spec k k') as [->|Hne].
    + split; [discriminate | intros [[] _]; reflexivity].
    + rewrite IH. tauto.
Qed.

Lemma reg_lookup_Some k l r : reg_lookup k r = Some l -> (k, l) ∈ r.
Proof.
  induction r as [|[k' l'] r IH]; simpl; [discriminate|].
  destruct (String.eqb_spec k k') as [->|Hne].
  - intros [= ->]. apply list_elem_of_here.
  - intros H. apply list_elem_of_further, IH, H.
Qed.

Lemma reg_lookup_delete_eq k r : reg_lookup k (reg_delete k r) = None.
Proof.
  induction r as [|[k' l] r IH]; simpl; [reflexivity|].
  destruct (String.eqb_spec k k') as [->|Hne]; [exact IH|].
  simpl. destruct (String.eqb_spec k k'); [contradiction | exact IH].
Qed.


Lemma reg_lookup_set_eq k l r : reg_lookup k (reg_set k l r) = Some l.
Proof.
  induction r as [|[k' l'] r IH]; simpl.
  - rewrite String.eqb_refl. reflexivity.
  - destruct (String.eqb_spec k k') as [->|Hne]; simpl.
    + rewrite String.eqb_refl. reflexivity.
    + destruct (String.eqb_spec k k'); [contradiction | exact IH].
Qed.

Lemma reg_lookup_set_ne k k' l r :
  k <> k' -> reg_lookup k' (reg_set k l r) = reg_lookup k' r.
Proof.
  intros Hne. induction r as [|[k0 l0] r IH]; simpl.
  - destruct (String.eqb_spec k' k); [congruence | reflexivity].
  - destruct (String.eqb_spec k k0) as [->|Hk]; simpl.
    + destruct (String.eqb_spec k' k0); [congruence | reflexivity].
    + rewrite IH. reflexivity.
Qed.

Lemma reg_delete_keys k k' r :
  k' ∈ reg_keys (reg_delete k r) -> k' ∈ reg_keys r /\ k' <> k.
Proof.
  unfold reg_keys. induction r as [|[k0 l] r IH]; simpl.
  - intros H. apply elem_of_nil in H. destruct H.
  - destruct (String.eqb_spec k k0) as [->|Hk]; simpl.
    + intros H. destruct (IH H) as [Hin Hne]. split; [|exact Hne].
      apply list_elem_of_further, Hin.
    + rewrite !elem_of_cons. intros [->|H].
      * split; [left; reflexivity | congruence].
      * destruct (IH H) as [Hin Hne]. split; [right; exact Hin | exact Hne].
Qed.

Lemma reg_delete_notin k r : k ∉ reg_keys r -> reg_delete k r = r.
Proof.
  unfold reg_keys. induction r as [|[k0 l] r IH]; simpl; [reflexivity|].
  rewrite not_elem_of_cons. intros [Hne Hnin].
  destruct (String.eqb_spec k k0); [contradiction|].
  rewrite IH; [reflexivity | exact Hnin].
Qed.

Lemma reg_lookup_elem k l r :
  NoDup (reg_keys r) -> (k, l) ∈ r -> reg_lookup k r = Some l.
Proof.
  unfold reg_keys. induction r as [|[k0 l0] r IH]; simpl.
  - intros _ Hin. apply elem_of_nil in Hin. destruct Hin.
  - intros Hnd Hin. apply NoDup_cons in Hnd as [Hk0 Hnd].
    apply elem_of_cons in Hin as [[= -> ->]|Hin].
    + rewrite String.eqb_refl. reflexivity.
    + destruct (String.eqb_spec k k0) as [->|Hne]; [|exact (IH Hnd Hin)].
      destruct Hk0. apply list_elem_of_fmap. exists (k0, l). split; [reflexivity|exact Hin].
Qed.

Lemma reg_keys_nil r : (forall k, k ∉ reg_keys r) -> r = [].
Proof.
  destruct r as [|[k l] r]; [reflexivity|].
  intros H. destruct (H k). apply list_elem_of_here.
Qed.

(** ** The monad *)


Lemma deref_Some l o st : heap st !! l = Some o -> deref l st = Normal o st.
Proof.
  intros H. unfold deref, gets. rewrite (list_lookup_total_correct _ _ _ H).
  reflexivity.
Qed.

Lemma update_Some l o f st :
  heap st !! l = Some o ->
  update l f st = Normal tt (with_heap (<[l := f o]> (heap st)) st).
Proof.
  intros H. unfold update, modify.
  rewrite (list_lookup_total_correct _ _ _ H). reflexivity.
Qed.



(** ** The status demultiplexer *)

Lemma mediaObjects_at_handle id l st :
  get id st = Some l -> mediaObjects_at id st = Handle l.
Proof. intros H. unfold mediaObjects_at. rewrite H. reflexivity. Qed.

Lemma mediaObjects_at_absent id st :
  get id st = None -> inherited_name id = false ->
  mediaObjects_at id st = Absent.
Proof. intros H1 H2. unfold mediaObjects_at. rewrite H1, H2. reflexivity. Qed.

Lemma mediaObjects_at_inherited id st :
  get id st = None -> inherited_name id = true ->
  mediaObjects_at id st = Inherited id.
Proof. intros H1 H2. unfold mediaObjects_at. rewrite H1, H2. reflexivity. Qed.

Lemma mediaObjects_at_handle_inv id l st :
  mediaObjects_at id st = Handle l -> get id st = Some l.
Proof.
  unfold mediaObjects_at. destruct (get id st) as [l'|].
  - intros [= ->]. reflexivity.
  - destruct (inherited_name id); discriminate.
Qed.

Section StatusProperties.

Variable StringToNumber : string -> number.
Variable ToPrimitive : hint -> value -> primitive.



(** A status for an id that has no entry in the registry. *)
Lemma onStatus_no_entry id msgType value st :
  get id st = None ->
  exists st' evs,
    onStatus StringToNumber ToPrimitive id msgType value st = Normal tt st' /\
    mediaObjects st' = mediaObjects st /\
    heap st' = heap st /\
    trace st' = trace st ++ evs /\
    Forall (fun ev => is_call ev = false /\ is_exec ev = false) evs /\
    (inherited_name id = false ->
     evs = if console_error st
           then [EvConsoleError
                   "Received Media.onStatus callback for unknown media :: "
                   (VStr id)]
           else []).
Proof.
  intros Hget. unfold onStatus, bind, gets, mediaObjects_at. rewrite Hget.
  assert (Hlog : forall text operand,
            exists st' evs,
              console_error_log text operand st = Normal tt st' /\
              mediaObjects st' = mediaObjects st /\ heap st' = heap st /\
              trace st' = trace st ++ evs /\
              Forall (fun ev => is_call ev = false /\ is_exec ev = false) evs /\
              evs = if console_error st then [EvConsoleError text operand]
                    else []).
  { intros text operand. unfold console_error_log, bind, gets.
    destruct (console_error st); simpl; do 2 eexists;
      (split; [reflexivity|]); simpl; repeat split;
      first [reflexivity | rewrite app_nil_r; reflexivity
            | repeat constructor]. }
  assert (Hnone : exists st' evs,
            Normal tt st = Normal tt st' /\
            mediaObjects st' = mediaObjects st /\ heap st' = heap st /\
            trace st' = trace st ++ evs /\
            Forall (fun ev => is_call ev = false /\ is_exec ev = false) evs /\
            (false = false -> evs = [])).
  { exists st, []. rewrite app_nil_r. repeat split. constructor. }
  destruct (inherited_name id).
  - assert (Hweak : forall (r : result unit),
              (exists st' evs, r = Normal tt st' /\
                 mediaObjects st' = mediaObjects st /\ heap st' = heap st /\
                 trace st' = trace st ++ evs /\
                 Forall (fun ev => is_call ev = false /\ is_exec ev = false)
                        evs) ->
              exists st' evs, r = Normal tt st' /\
                 mediaObjects st' = mediaObjects st /\ heap st' = heap st /\
                 trace st' = trace st ++ evs /\
                 Forall (fun ev => is_call ev = false /\ is_exec ev = false)
                        evs /\
                 (true = false ->
                  evs = if console_error st
                        then [EvConsoleError
                                "Received Media.onStatus callback for unknown media :: "
                                (VStr id)]
                        else [])).
    { intros r (st' & evs & H1 & H2 & H3 & H4 & H5). exists st', evs.
      repeat split; try assumption. discriminate. }
    apply Hweak. cbv beta iota. unfold call_if_set_on, assign, ret, emit, modify.
    destruct (strict_eq_number msgType MEDIA_STATE).
    { destruct (loose_eq_number StringToNumber ToPrimitive value MEDIA_STOPPED);
        exists st, []; rewrite app_nil_r; repeat split; constructor. }
    destruct (strict_eq_number msgType MEDIA_DURATION).
    { do 2 eexists. split; [reflexivity|]. simpl. repeat split.
      repeat constructor. }
    destruct (strict_eq_number msgType MEDIA_ERROR).
    { exists st, []. rewrite app_nil_r. repeat split. constructor. }
    destruct (strict_eq_number msgType MEDIA_POSITION).
    { do 2 eexists. split; [reflexivity|]. simpl. repeat split.
      repeat constructor. }
    destruct (Hlog "Unhandled Media.onStatus :: " msgType)
      as (st' & evs & H1 & H2 & H3 & H4 & H5 & _).
    exists st', evs. repeat split; assumption.
  - cbv beta iota.
    destruct (Hlog "Received Media.onStatus callback for unknown media :: "
                   (VStr id)) as (st' & evs & H1 & H2 & H3 & H4 & H5 & H6).
    exists st', evs. repeat split; try assumption. intros _. exact H6.
Qed.


(** C7: a POSITION status for a registered handle makes [Number(value)]
    the cached position of the handle; the handle keeps its cached
    duration, its id, its source and its callbacks, and nothing is called:
    the trace, the registry and every other object stay as they were. *)
Theorem onStatus_position id value st l o :
  get id st = Some l ->
  heap st !! l = Some o ->
  exists st' o',
    onStatus StringToNumber ToPrimitive id (VNum MEDIA_POSITION) value st =
      Normal tt st' /\
    st' = with_heap (<[l := o']> (heap st)) st /\
    cached_position l st' =
      Some (VNum (Number StringToNumber ToPrimitive value)) /\
    _position o' = VNum (Number StringToNumber ToPrimitive value) /\
    _duration o' = _duration o /\
    same_identity o o' /\
    mediaObjects st' = mediaObjects st /\
    trace st' = trace st.
Proof.
  intros Hget Ho. unfold onStatus, bind, gets.
  rewrite (mediaObjects_at_handle _ _ _ Hget).
  change (strict_eq_number (VNum MEDIA_POSITION) MEDIA_STATE) with false.
  change (strict_eq_number (VNum MEDIA_POSITION) MEDIA_DURATION) with false.
  change (strict_eq_number (VNum MEDIA_POSITION) MEDIA_ERROR) with false.
  change (strict_eq_number (VNum MEDIA_POSITION) MEDIA_POSITION) with true.
  cbv beta iota. unfold assign. rewrite (update_Some _ _ _ _ Ho).
  eexists. eexists. split; [reflexivity|]. split; [reflexivity|].
  split.
  - unfold cached_position. simpl. rewrite list_lookup_insert_eq.
    + reflexivity.
    + apply lookup_lt_Some in Ho. exact Ho.
  - repeat split.
Qed.

End StatusProperties.

(** ** The command dispatcher *)

(** Unfolds a method built by [mediaExec] on an object that is in the
    heap. *)
Ltac run_method Ho :=
  unfold mediaExec, or_nothing, id_, oneArgument, src_, defaultErrorCallback,
    success, fail, nothing, exec, emit, bind, ret, modify;
  cbv beta iota zeta;
  repeat (rewrite (deref_Some _ _ _ Ho); cbv beta iota).

Lemma stop_call l o args st :
  heap st !! l = Some o ->
  stop l args st =
  Normal tt
    (with_trace
       (trace st ++
        [EvExec (CbStopSuccess l) (CbValue (errorCallback o)) "Media"
                "stopPlayingAudio" [VStr (m_id o)]])
       st).
Proof. intros Ho. unfold stop. run_method Ho. reflexivity. Qed.

Lemma seekTo_call l o args st :
  heap st !! l = Some o ->
  seekTo l args st =
  Normal tt
    (with_trace
       (trace st ++
        [EvExec (CbSeekToSuccess l args) (CbValue (arg args 2)) "Media"
                "seekToAudio" [VStr (m_id o); arg args 0]])
       st).
Proof. intros Ho. unfold seekTo. run_method Ho. reflexivity. Qed.

Lemma getCurrentPosition_call l o args st :
  heap st !! l = Some o ->
  getCurrentPosition l args st =
  Normal tt
    (with_trace
       (trace st ++
        [EvExec (CbGetCurrentPositionSuccess l args) (CbValue (arg args 1))
                "Media" "getCurrentPositionAudio" [VStr (m_id o)]])
       st).
Proof. intros Ho. unfold getCurrentPosition. run_method Ho. reflexivity. Qed.

Lemma release_call l o args st :
  heap st !! l = Some o ->
  release l args st =
  Normal tt
    (with_trace
       (trace st ++
        [EvExec (CbValue VUndefined) (CbValue (errorCallback o)) "Media"
                "release" [VStr (m_id o)]])
       (with_mediaObjects (reg_delete (m_id o) (mediaObjects st)) st)).
Proof.
  intros Ho. unfold release. run_method Ho.
  assert (Ho' : heap (with_mediaObjects (reg_delete (m_id o) (mediaObjects st))
                        st) !! l = Some o) by exact Ho.
  repeat (rewrite (deref_Some _ _ _ Ho'); cbv beta iota). reflexivity.
Qed.

Lemma call_heap f args st : heap (state_of (call f args st)) = heap st.
Proof. destruct f; reflexivity. Qed.

Lemma seekTo_success_apply l o args p st :
  heap st !! l = Some o ->
  apply_callback (CbSeekToSuccess l args) p st =
  call (arg args 1) [arg p 0]
       (with_heap (<[l := set_position (arg p 0) o]> (heap st)) st).
Proof.
  intros Ho. unfold apply_callback, bind.
  rewrite (update_Some _ _ _ _ Ho). reflexivity.
Qed.

Lemma getCurrentPosition_success_apply l o args p st :
  heap st !! l = Some o ->
  apply_callback (CbGetCurrentPositionSuccess l args) p st =
  call (arg args 0) [arg p 0]
       (with_heap (<[l := set_position (arg p 0) o]> (heap st)) st).
Proof.
  intros Ho. unfold apply_callback, bind.
  rewrite (update_Some _ _ _ _ Ho). reflexivity.
Qed.


(** C2 (as amended): [stop], [seekTo] and [getCurrentPosition] change
    nothing of the handle when they are called: each one only hands a
    command to the bridge, together with the success callback built by its
    adapter.  The cached position is written by that callback, when it is
    applied: it becomes 0 for [stop], and the value the callback receives
    for the other two; the rest of the object is as it was. *)
Theorem position_written_by_success_callback l o args st :
  heap st !! l = Some o ->
  (exists st', stop l args st = Normal tt st' /\
     heap st' = heap st /\ mediaObjects st' = mediaObjects st /\
     cached_position l st' = Some (_position o) /\
     exists e a, trace st' =
       trace st ++ [EvExec (CbStopSuccess l) e "Media" "stopPlayingAudio" a]) /\
  (exists st', seekTo l args st = Normal tt st' /\
     heap st' = heap st /\ mediaObjects st' = mediaObjects st /\
     cached_position l st' = Some (_position o) /\
     exists e a, trace st' =
       trace st ++ [EvExec (CbSeekToSuccess l args) e "Media" "seekToAudio" a]) /\
  (exists st', getCurrentPosition l args st = Normal tt st' /\
     heap st' = heap st /\ mediaObjects st' = mediaObjects st /\
     cached_position l st' = Some (_position o) /\
     exists e a, trace st' =
       trace st ++ [EvExec (CbGetCurrentPositionSuccess l args) e "Media"
                           "getCurrentPositionAudio" a]) /\
  (forall st2 o2 p, heap st2 !! l = Some o2 ->
     forall cb v,
       (cb = CbStopSuccess l /\ v = VNum (num_of_Z 0)) \/
       (cb = CbSeekToSuccess l args /\ v = arg p 0) \/
       (cb = CbGetCurrentPositionSuccess l args /\ v = arg p 0) ->
       let st3 := state_of (apply_callback cb p st2) in
       cached_position l st3 = Some v /\
       exists o3,
         heap st3 = <[l := o3]> (heap st2) /\
         _position o3 = v /\
         _duration o3 = _duration o2 /\
         same_identity o2 o3).
Proof.
  intros Ho.
  assert (Hpos : forall t, cached_position l (with_trace t st) =
                           Some (_position o)).
  { intros t. unfold cached_position. simpl. rewrite Ho. reflexivity. }
  split; [|split; [|split]].
  - rewrite (stop_call _ _ _ _ Ho). eexists. split; [reflexivity|].
    split; [reflexivity|]. split; [reflexivity|]. split; [apply Hpos|]. eauto.
  - rewrite (seekTo_call _ _ _ _ Ho). eexists. split; [reflexivity|].
    split; [reflexivity|]. split; [reflexivity|]. split; [apply Hpos|]. eauto.
  - rewrite (getCurrentPosition_call _ _ _ _ Ho). eexists.
    split; [reflexivity|]. split; [reflexivity|]. split; [reflexivity|].
    split; [apply Hpos|]. eauto.
  - intros st2 o2 p Ho2 cb v Hcb. cbv zeta.
    set (st3 := state_of (apply_callback cb p st2)).
    assert (Hl : l < length (heap st2))
      by (apply lookup_lt_Some in Ho2; exact Ho2).
    assert (Hheap : heap st3 = <[l := set_position v o2]> (heap st2)).
    { subst st3. destruct Hcb as [[-> ->]|[[-> ->]|[-> ->]]].
      - unfold apply_callback. rewrite (update_Some _ _ _ _ Ho2). reflexivity.
      - rewrite (seekTo_success_apply _ _ _ _ _ Ho2). apply call_heap.
      - rewrite (getCurrentPosition_success_apply _ _ _ _ _ Ho2).
        apply call_heap. }
    split.
    + unfold cached_position.
      rewrite Hheap, (list_lookup_insert_eq _ _ _ Hl). reflexivity.
    + exists (set_position v o2). split; [exact Hheap|]. repeat split.
Qed.

(** C8: [seekTo] itself leaves every handle as it is and hands the bridge a
    success callback; applying that callback to the value [p] of the bridge
    makes [p] the cached position of the handle and keeps its cached
    duration, whatever the duration is; applying the error callback of the
    command changes no handle. *)
Theorem seekTo_position_only_on_success l o args st :
  heap st !! l = Some o ->
  seekTo l args st =
    Normal tt
      (with_trace
         (trace st ++
          [EvExec (CbSeekToSuccess l args) (CbValue (arg args 2)) "Media"
                  "seekToAudio" [VStr (m_id o); arg args 0]])
         st) /\
  (forall st2 o2 p, heap st2 !! l = Some o2 ->
     exists o3,
       heap (state_of (apply_callback (CbSeekToSuccess l args) p st2)) =
         <[l := o3]> (heap st2) /\
       _position o3 = arg p 0 /\
       _duration o3 = _duration o2) /\
  (forall st2 e,
     heap (state_of (apply_callback (CbValue (arg args 2)) e st2)) = heap st2).
Proof.
  intros Ho. split; [apply seekTo_call, Ho|]. split.
  - intros st2 o2 p Ho2. exists (set_position (arg p 0) o2).
    rewrite (seekTo_success_apply _ _ _ _ _ Ho2). rewrite call_heap.
    repeat split.
  - intros st2 e. apply call_heap.
Qed.


(** ** [Media.forceStop] *)

Lemma stop_total l args st :
  stop l args st =
  Normal tt
    (with_trace
       (trace st ++
        [EvExec (CbStopSuccess l) (CbValue (errorCallback (heap st !!! l)))
                "Media" "stopPlayingAudio" [VStr (m_id (heap st !!! l))]])
       st).
Proof. reflexivity. Qed.

Lemma release_total l args st :
  release l args st =
  Normal tt
    (with_trace
       (trace st ++
        [EvExec (CbValue VUndefined) (CbValue (errorCallback (heap st !!! l)))
                "Media" "release" [VStr (m_id (heap st !!! l))]])
       (with_mediaObjects
          (reg_delete (m_id (heap st !!! l)) (mediaObjects st)) st)).
Proof. reflexivity. Qed.

(** One turn of the loop of [forceStop] on a key that is present. *)
Lemma forceStop_loop_present k l keys st :
  get k st = Some l ->
  forceStop_loop (k :: keys) st =
  forceStop_loop keys
    (with_trace
       (trace st ++ stop_then_release (heap st) [(k, l)])
       (with_mediaObjects
          (reg_delete k (reg_delete (m_id (heap st !!! l)) (mediaObjects st)))
          st)).
Proof.
  intros Hget. simpl. unfold bind at 1. unfold gets at 1. rewrite Hget.
  unfold bind at 1. unfold call_method at 1. unfold bind at 1, gets at 1.
  rewrite Hget, stop_total.
  unfold bind at 1. unfold call_method at 1. unfold bind at 1, gets at 1.
  change (get k (with_trace ?t st)) with (get k st). rewrite Hget.
  rewrite release_total. unfold bind at 1, modify at 1.
  unfold stop_then_release, with_trace, with_mediaObjects. simpl.
  rewrite <- app_assoc. reflexivity.
Qed.

Lemma forceStop_loop_absent k keys st :
  get k st = None -> forceStop_loop (k :: keys) st = forceStop_loop keys st.
Proof.
  intros Hget. simpl. unfold bind at 1. unfold gets at 1. rewrite Hget.
  reflexivity.
Qed.

(** Whatever the state, the loop ends, touches no object, and leaves in the
    registry only keys that it was not asked to visit. *)
Lemma forceStop_loop_keys keys : forall st,
  exists st',
    forceStop_loop keys st = Normal tt st' /\
    heap st' = heap st /\
    forall k, k ∈ reg_keys (mediaObjects st') ->
      k ∈ reg_keys (mediaObjects st) /\ k ∉ keys.
Proof.
  induction keys as [|k keys IH]; intros st.
  - exists st. repeat split; [assumption | apply not_elem_of_nil].
  - destruct (get k st) as [l|] eqn:Hget.
    + rewrite (forceStop_loop_present _ _ _ _ Hget).
      edestruct IH as (st' & Hrun & Hheap & Hkeys). exists st'.
      split; [exact Hrun|]. split; [exact Hheap|].
      intros k' Hk'. destruct (Hkeys k' Hk') as [Hin Hnin]. simpl in Hin.
      apply reg_delete_keys in Hin as [Hin Hne].
      apply reg_delete_keys in Hin as [Hin _].
      split; [exact Hin|]. rewrite not_elem_of_cons. split; assumption.
    + rewrite (forceStop_loop_absent _ _ _ Hget).
      destruct (IH st) as (st' & Hrun & Hheap & Hkeys). exists st'.
      split; [exact Hrun|]. split; [exact Hheap|].
      intros k' Hk'. destruct (Hkeys k' Hk') as [Hin Hnin].
      split; [exact Hin|]. rewrite not_elem_of_cons. split; [|exact Hnin].
      intros ->. apply reg_lookup_None in Hget. contradiction.
Qed.

(** The order of [for]-[in] is an order of the same entries. *)
Lemma insert_index_perm n e l : (insert_index n e l).*2 ≡ₚ e :: l.*2.
Proof.
  induction l as [|[m e'] l IH]; simpl; [reflexivity|].
  destruct (n <=? m)%N; simpl; [reflexivity|].
  rewrite IH. apply Permutation_swap.
Qed.

Lemma for_in_entries_perm r : for_in_entries r ≡ₚ r.
Proof.
  unfold for_in_entries. induction r as [|e r IH]; simpl; [reflexivity|].
  destruct (array_index e.1).
  - rewrite insert_index_perm. simpl. rewrite IH. reflexivity.
  - rewrite <- Permutation_middle. rewrite IH. reflexivity.
Qed.

Lemma for_in_keys_perm r : for_in_keys r ≡ₚ reg_keys r.
Proof. unfold for_in_keys, reg_keys. rewrite for_in_entries_perm. reflexivity. Qed.

(** Whatever the state, [forceStop] returns with an empty registry and has
    touched no object. *)
Lemma forceStop_run st :
  exists st',
    forceStop st = Normal tt st' /\ heap st' = heap st /\ mediaObjects st' = [].
Proof.
  unfold forceStop, bind, gets.
  destruct (forceStop_loop_keys (for_in_keys (mediaObjects st)) st)
    as (st' & Hrun & Hheap & Hkeys).
  exists st'. split; [exact Hrun|]. split; [exact Hheap|].
  apply reg_keys_nil. intros k Hk. destruct (Hkeys k Hk) as [Hin Hnin].
  apply Hnin. rewrite for_in_keys_perm. exact Hin.
Qed.



(** ** [release] *)

(** C4: what [release] does on a registered handle.  The entry is deleted
    while the method runs, by the success adapter itself, before the command
    is issued; the command carries no success callback ([undefined]), so
    nothing is left to happen when the bridge reports success. *)
Theorem release_unregisters_when_called id l o args st :
  get id st = Some l ->
  heap st !! l = Some o ->
  m_id o = id ->
  exists st',
    release l args st = Normal tt st' /\
    get id st' = None /\
    heap st' = heap st /\
    trace st' = trace st ++
      [EvExec (CbValue VUndefined) (CbValue (errorCallback o)) "Media"
              "release" [VStr id]] /\
    (inherited_name id = false -> Media_get id st' = Absent).
Proof.
  intros _ Ho <-. rewrite (release_call _ _ _ _ Ho). eexists.
  split; [reflexivity|].
  assert (Hgone : reg_lookup (m_id o) (reg_delete (m_id o) (mediaObjects st))
                  = None) by apply reg_lookup_delete_eq.
  split; [exact Hgone|]. split; [reflexivity|]. split; [reflexivity|].
  intros Hname. apply mediaObjects_at_absent; [exact Hgone | exact Hname].
Qed.

Lemma release_wf l args st :
  registry_wf st -> registry_wf (state_of (release l args st)).
Proof.
  intros [Hnd Hobj]. rewrite release_total. simpl.
  set (k := m_id (heap st !!! l)). split; simpl.
  - clearbody k. clear Hobj. unfold reg_keys in *.
    induction (mediaObjects st) as [|[k' l'] r IH]; simpl; [constructor|].
    simpl in Hnd. apply NoDup_cons in Hnd as [Hk' Hnd].
    destruct (String.eqb k k'); [exact (IH Hnd)|].
    simpl. apply NoDup_cons. split; [|exact (IH Hnd)].
    intros Hin. apply reg_delete_keys in Hin as [Hin _]. contradiction.
  - intros k' l' Hin. apply Hobj. clearbody k. clear Hnd Hobj.
    induction (mediaObjects st) as [|[k0 l0] r IH]; simpl in Hin.
    + apply elem_of_nil in Hin. destruct Hin.
    + destruct (String.eqb k k0).
      * apply list_elem_of_further, IH, Hin.
      * apply elem_of_cons in Hin as [->|Hin];
          [apply list_elem_of_here | apply list_elem_of_further, IH, Hin].
Qed.

(** ** The constructor *)

Lemma checkArgs_sFFFF_typed src sc ec stc cc st :
  is_string src = true ->
  fits OptFunction sc = true ->
  fits OptFunction ec = true ->
  fits OptFunction stc = true ->
  fits OptFunction cc = true ->
  checkArgs sFFFF [src; sc; ec; stc; cc] st = Normal tt st.
Proof.
  intros Hsrc Hsc Hec Hstc Hcc. unfold sFFFF, checkArgs, arg, tail, nth.
  change (fits ReqString src) with (is_string src).
  rewrite Hsrc, Hsc, Hec, Hstc, Hcc. reflexivity.
Qed.

Lemma reg_set_keys k l r k' :
  k' ∈ reg_keys (reg_set k l r) -> k' = k \/ k' ∈ reg_keys r.
Proof.
  unfold reg_keys. induction r as [|[k0 l0] r IH]; simpl.
  - rewrite elem_of_cons. tauto.
  - destruct (String.eqb_spec k k0) as [->|Hne]; simpl; rewrite !elem_of_cons.
    + tauto.
    + intros [->|Hin]; [tauto|]. destruct (IH Hin); tauto.
Qed.

Section ConstructorProperties.

Variable createUUID : nat -> string.

(** [utils.createUUID] never draws the same identifier twice. *)
Hypothesis createUUID_unique : forall m n, createUUID m = createUUID n -> m = n.

Lemma createUUID_fresh st :
  ids_drawn createUUID st ->
  createUUID (uuid_calls st) ∉ reg_keys (mediaObjects st).
Proof.
  intros Hdrawn Hin. destruct (Hdrawn _ Hin) as (n & Hlt & Heq).
  apply createUUID_unique in Heq. lia.
Qed.

(** C5: the constructor, given arguments that [argscheck] accepts, takes
    the identifier drawn by [utils.createUUID], which no handle of the
    registry has; it registers the new handle under it, so that [Media.get]
    returns the handle for that id and what it returned before for every
    other id; the cached duration and position of the handle are -1. *)
Theorem new_Media_registers src sc ec stc cc st :
  ids_drawn createUUID st ->
  is_string src = true ->
  fits OptFunction sc = true ->
  fits OptFunction ec = true ->
  fits OptFunction stc = true ->
  fits OptFunction cc = true ->
  let id := createUUID (uuid_calls st) in
  let this := length (heap st) in
  exists st' o,
    new_Media createUUID src sc ec stc cc st = Normal this st' /\
    (id ∉ reg_keys (mediaObjects st)) /\
    get id st' = Some this /\
    (forall k, k <> id -> get k st' = get k st) /\
    heap st' = heap st ++ [o] /\
    o = mkMedia id src sc ec stc (VNum (num_of_Z (-1))) (VNum (num_of_Z (-1))) /\
    _duration o = VNum (num_of_Z (-1)) /\
    _position o = VNum (num_of_Z (-1)) /\
    trace st' = trace st ++
      [EvExec (CbValue cc) (CbValue ec) "Media" "create" [VStr id; src]] /\
    ids_drawn createUUID st' /\
    Media_get id st' = Handle this.
Proof.
  intros Hdrawn Hsrc Hsc Hec Hstc Hcc id this.
  unfold new_Media, bind.
  rewrite (checkArgs_sFFFF_typed _ _ _ _ _ _ Hsrc Hsc Hec Hstc Hcc).
  eexists. eexists. split; [reflexivity|]. simpl.
  split; [apply createUUID_fresh, Hdrawn|].
  split; [apply reg_lookup_set_eq|].
  split; [intros k Hk; apply reg_lookup_set_ne; intros E; apply Hk; symmetry; exact E|].
  repeat (split; [reflexivity|]).
  split.
  - intros k Hk. simpl in Hk. apply reg_set_keys in Hk as [->|Hk].
    + exists (uuid_calls st). simpl. split; [lia | reflexivity].
    + destruct (Hdrawn k Hk) as (n & Hlt & ->). exists n. simpl.
      split; [lia | reflexivity].
  - apply mediaObjects_at_handle. unfold get. simpl. apply reg_lookup_set_eq.
Qed.

End ConstructorProperties.

(** ** The inbound channel *)


Section ChannelProperties.

Variable StringToNumber : string -> number.
Variable ToPrimitive : hint -> value -> primitive.



End ChannelProperties.

(** ** Well-formedness is kept *)

Lemma initial_state_wf : registry_wf initial_state.
Proof.
  split; [apply NoDup_nil_2|]. intros k l Hin. apply elem_of_nil in Hin.
  destruct Hin.
Qed.

Lemma checkArgs_outcome spec : forall args st,
  checkArgs spec args st = Normal tt st \/
  exists e, checkArgs spec args st = Throw e st.
Proof.
  induction spec as [|c spec IH]; intros args st; simpl.
  - left. reflexivity.
  - destruct (fits c (arg args 0)); [apply IH|]. right. eexists. reflexivity.
Qed.

Lemma reg_set_NoDup k l r :
  NoDup (reg_keys r) -> NoDup (reg_keys (reg_set k l r)).
Proof.
  induction r as [|[k0 l0] r IH]; simpl.
  - intros _. apply NoDup_singleton.
  - intros Hnd. apply NoDup_cons in Hnd as [Hk0 Hnd].
    destruct (String.eqb_spec k k0) as [->|Hne]; simpl.
    + apply NoDup_cons. split; assumption.
    + apply NoDup_cons. split; [|exact (IH Hnd)].
      intros Hin. apply reg_set_keys in Hin as [->|Hin]; contradiction.
Qed.

Lemma reg_set_elem k l r e : e ∈ reg_set k l r -> e = (k, l) \/ e ∈ r.
Proof.
  induction r as [|[k0 l0] r IH]; simpl.
  - rewrite elem_of_cons. tauto.
  - destruct (String.eqb k k0); rewrite !elem_of_cons; [tauto|].
    intros [->|Hin]; [tauto|]. destruct (IH Hin); tauto.
Qed.

Lemma new_Media_wf createUUID src sc ec stc cc st :
  registry_wf st ->
  registry_wf (state_of (new_Media createUUID src sc ec stc cc st)).
Proof.
  intros [Hnd Hobj]. unfold new_Media, bind.
  destruct (checkArgs_outcome sFFFF [src; sc; ec; stc; cc] st)
    as [->|[e ->]]; [|split; assumption].
  simpl. split; simpl.
  - apply reg_set_NoDup, Hnd.
  - intros k l Hin. apply reg_set_elem in Hin as [[= -> ->]|Hin].
    + eexists. split; [apply list_lookup_middle; reflexivity | reflexivity].
    + destruct (Hobj k l Hin) as (o & Ho & Hid). exists o.
      split; [apply lookup_app_l_Some, Ho | exact Hid].
Qed.

(** ** The properties on the sample states *)

Lemma sample_createUUID_unique m n :
  sample_createUUID m = sample_createUUID n -> m = n.
Proof. unfold sample_createUUID. intros H. simplify_eq/=. reflexivity. Qed.


(** After [stop()] has returned, the cached position of the handle is still
    the 5 it was before the call. *)
Lemma stop_call_keeps_position :
  exists st',
    stop 0 [] one_handle = Normal tt st' /\
    cached_position 0 st' = Some (VNum (num_of_Z 5)) /\
    cached_position 0 st' <> Some (VNum (num_of_Z 0)).
Proof.
  eexists. split; [reflexivity|]. split; [reflexivity|]. discriminate.
Qed.

Lemma position_written_by_success_callback_sample :
  heap one_handle !! 0 = Some song /\
  (exists st',
     stop 0 [] one_handle = Normal tt st' /\
     cached_position 0 st' = Some (VNum (num_of_Z 5)) /\
     cached_position 0 (state_of (apply_callback (CbStopSuccess 0) [] st')) =
       Some (VNum (num_of_Z 0))) /\
  (exists st',
     seekTo 0 [VNum (num_of_Z 30); VFun 7] one_handle = Normal tt st' /\
     cached_position 0 st' = Some (VNum (num_of_Z 5)) /\
     cached_position 0
       (state_of (apply_callback
                    (CbSeekToSuccess 0 [VNum (num_of_Z 30); VFun 7])
                    [VNum (num_of_Z 31)] st')) =
       Some (VNum (num_of_Z 31))).
Proof.
  split; [reflexivity|].
  destruct (position_written_by_success_callback 0 song
              [VNum (num_of_Z 30); VFun 7] one_handle eq_refl)
    as ((st1 & Hrun1 & Hheap1 & _ & Hpos1 & _) &
        (st2 & Hrun2 & Hheap2 & _ & Hpos2 & _) & _ & Hcb).
  split.
  - destruct (position_written_by_success_callback 0 song [] one_handle
                eq_refl) as ((st0 & Hrun0 & Hheap0 & _ & Hpos0 & _) & _).
    exists st0. split; [exact Hrun0|]. split; [exact Hpos0|].
    assert (Ho : heap st0 !! 0 = Some song) by (rewrite Hheap0; reflexivity).
    exact (proj1 (Hcb st0 song [] Ho (CbStopSuccess 0) (VNum (num_of_Z 0))
                    (or_introl (conj eq_refl eq_refl)))).
  - exists st2. split; [exact Hrun2|]. split; [exact Hpos2|].
    assert (Ho : heap st2 !! 0 = Some song) by (rewrite Hheap2; reflexivity).
    exact (proj1 (Hcb st2 song [VNum (num_of_Z 31)] Ho
                    (CbSeekToSuccess 0 [VNum (num_of_Z 30); VFun 7])
                    (VNum (num_of_Z 31))
                    (or_intror (or_introl (conj eq_refl eq_refl))))).
Defined.





Lemma release_unregisters_song :
  exists st',
    release 0 [] one_handle = Normal tt st' /\
    get "uuid-0" st' = None /\
    heap st' = heap one_handle /\
    trace st' =
      [EvExec (CbValue VUndefined) (CbValue (VFun 2)) "Media" "release"
              [VStr "uuid-0"]] /\
    Media_get "uuid-0" st' = Absent.
Proof.
  destruct (release_unregisters_when_called "uuid-0" 0 song [] one_handle
              eq_refl eq_refl eq_refl)
    as (st' & Hrun & Hget & Hheap & Htrace & Hmg).
  exists st'. split; [exact Hrun|]. split; [exact Hget|].
  split; [exact Hheap|]. split; [exact Htrace | exact (Hmg eq_refl)].
Defined.

Lemma one_handle_ids_drawn : ids_drawn sample_createUUID one_handle.
Proof.
  intros k Hk. simpl in Hk. apply elem_of_cons in Hk as [->|Hk].
  - exists 0. split; [simpl; lia | reflexivity].
  - apply elem_of_nil in Hk. destruct Hk.
Defined.

Lemma new_Media_registers_memo :
  exists st',
    new_Media sample_createUUID (VStr "memo.wav") VUndefined (VFun 4) VNull
              VUndefined one_handle = Normal 1 st' /\
    get "uuid-1" st' = Some 1 /\
    get "uuid-0" st' = Some 0 /\
    heap st' = [song; memo] /\
    Media_get "uuid-1" st' = Handle 1.
Proof.
  destruct (new_Media_registers sample_createUUID sample_createUUID_unique
              (VStr "memo.wav") VUndefined (VFun 4) VNull VUndefined one_handle
              one_handle_ids_drawn eq_refl eq_refl eq_refl eq_refl eq_refl)
    as (st' & o & Hrun & _ & Hget & Hother & Hheap & -> & _ & _ & _ & _ & Hmg).
  exists st'. split; [exact Hrun|]. split; [exact Hget|].
  split; [rewrite Hother; [reflexivity | discriminate]|].
  split; [rewrite Hheap; reflexivity | exact Hmg].
Defined.



Lemma onStatus_position_sample :
  let status value :=
    onStatus digits_StringToNumber sample_ToPrimitive "uuid-0"
             (VNum MEDIA_POSITION) value one_handle in
  (exists st', status (VStr "42") = Normal tt st' /\
     cached_position 0 st' = Some (VNum (num_of_Z 42)) /\
     trace st' = [] /\
     getDuration 0 st' = Normal (VNum (num_of_Z 120)) st') /\
  (exists st', status (VObj 2) = Normal tt st' /\
     cached_position 0 st' = Some (VNum (num_of_Z 42))) /\
  (exists st', status VNull = Normal tt st' /\
     cached_position 0 st' = Some (VNum (num_of_Z 0))) /\
  (exists st', status (VBool true) = Normal tt st' /\
     cached_position 0 st' = Some (VNum (num_of_Z 1))) /\
  (exists st', status VUndefined = Normal tt st' /\
     cached_position 0 st' = Some (VNum NaN)).
Proof.
  pose proof (fun value =>
    onStatus_position digits_StringToNumber sample_ToPrimitive "uuid-0" value
      one_handle 0 song eq_refl eq_refl) as H.
  simpl. split; [|split; [|split; [|split]]].
  - destruct (H (VStr "42"))
      as (st' & o' & Hrun & -> & Hpos & _ & Hdur & _ & _ & Htr).
    eexists. split; [exact Hrun|]. split; [exact Hpos|]. split; [exact Htr|].
    unfold getDuration, bind, deref, gets, ret. simpl. rewrite Hdur.
    reflexivity.
  - destruct (H (VObj 2)) as (st' & o' & Hrun & _ & Hpos & _).
    exists st'. split; [exact Hrun | exact Hpos].
  - destruct (H VNull) as (st' & o' & Hrun & _ & Hpos & _).
    exists st'. split; [exact Hrun | exact Hpos].
  - destruct (H (VBool true)) as (st' & o' & Hrun & _ & Hpos & _).
    exists st'. split; [exact Hrun | exact Hpos].
  - destruct (H VUndefined) as (st' & o' & Hrun & _ & Hpos & _).
    exists st'. split; [exact Hrun | exact Hpos].
Defined.

Lemma seekTo_position_only_on_success_sample :
  seekTo 0 [VNum (num_of_Z 30); VFun 7; VFun 8] one_handle =
  Normal tt
    (with_trace
       [EvExec (CbSeekToSuccess 0 [VNum (num_of_Z 30); VFun 7; VFun 8])
               (CbValue (VFun 8)) "Media" "seekToAudio"
               [VStr "uuid-0"; VNum (num_of_Z 30)]]
       one_handle).
Proof.
  exact (proj1 (seekTo_position_only_on_success 0 song
                  [VNum (num_of_Z 30); VFun 7; VFun 8] one_handle eq_refl)).
Defined.





(** * Further properties *)

(** ** Frames *)

Lemma quiet_refl st : quiet st st.
Proof.
  repeat split. exists []. rewrite app_nil_r. split; [reflexivity|constructor].
Qed.

Lemma quiet_trans st1 st2 st3 : quiet st1 st2 -> quiet st2 st3 -> quiet st1 st3.
Proof.
  intros (Hr1 & Hh1 & Hu1 & evs1 & Ht1 & Hq1) (Hr2 & Hh2 & Hu2 & evs2 & Ht2 & Hq2).
  repeat split; try congruence.
  exists (evs1 ++ evs2). rewrite Ht2, Ht1, app_assoc.
  split; [reflexivity | apply Forall_app; split; assumption].
Qed.

Lemma quiet_emit ev st :
  is_exec ev = false -> quiet st (with_trace (trace st ++ [ev]) st).
Proof.
  intros Hev. repeat split. exists [ev].
  split; [reflexivity | repeat constructor; exact Hev].
Qed.

Lemma state_of_bind {A B : Type} (m : M A) (k : A -> M B) st :
  state_of (bind m k st) =
  match m st with
  | Normal a st' => state_of (k a st')
  | Throw _ st' => st'
  end.
Proof. unfold bind. destruct (m st); reflexivity. Qed.

Lemma call_quiet f args st : quiet st (state_of (call f args st)).
Proof.
  destruct f; try apply quiet_refl. simpl. apply quiet_emit. reflexivity.
Qed.

Lemma call_if_set_quiet field media args st :
  quiet st (state_of (call_if_set field media args st)).
Proof.
  unfold call_if_set. rewrite state_of_bind. unfold deref, gets.
  destruct (truthy (field (heap st !!! media))); simpl;
    [apply call_quiet | apply quiet_refl].
Qed.

Lemma call_if_set_outcome field media args st :
  call_if_set field media args st =
    Normal tt (state_of (call_if_set field media args st)) \/
  exists e, call_if_set field media args st = Throw e st.
Proof.
  unfold call_if_set, bind, deref, gets.
  destruct (truthy (field (heap st !!! media))); simpl; [|left; reflexivity].
  destruct (field (heap st !!! media)); simpl;
    first [left; reflexivity | right; eexists; reflexivity].
Qed.

Lemma console_error_log_quiet text operand st :
  quiet st (state_of (console_error_log text operand st)).
Proof.
  unfold console_error_log. rewrite state_of_bind. unfold gets.
  destruct (console_error st); simpl;
    [apply quiet_emit; reflexivity | apply quiet_refl].
Qed.

Lemma same_identity_refl o : same_identity o o.
Proof. repeat split. Qed.

Lemma handles_kept_refl h : handles_kept h h.
Proof.
  split; [reflexivity|]. intros l o Ho. exists o.
  split; [exact Ho | apply same_identity_refl].
Qed.

Lemma handles_kept_insert h l f :
  (forall o, same_identity o (f o)) ->
  handles_kept h (<[l := f (h !!! l)]> h).
Proof.
  intros Hf. split; [apply length_insert|]. intros l' o Ho.
  destruct (decide (l = l')) as [->|Hne].
  - exists (f o). rewrite (list_lookup_total_correct _ _ _ Ho).
    split; [|apply Hf]. apply list_lookup_insert_eq.
    apply lookup_lt_Some in Ho. exact Ho.
  - exists o. split; [|apply same_identity_refl].
    rewrite list_lookup_insert_ne; [exact Ho | exact Hne].
Qed.

Lemma handles_kept_trans h1 h2 h3 :
  handles_kept h1 h2 -> handles_kept h2 h3 -> handles_kept h1 h3.
Proof.
  intros [Hl1 H1] [Hl2 H2]. split; [congruence|]. intros l o Ho.
  destruct (H1 l o Ho) as (o2 & Ho2 & I1 & I2 & I3 & I4 & I5).
  destruct (H2 l o2 Ho2) as (o3 & Ho3 & J1 & J2 & J3 & J4 & J5).
  exists o3. split; [exact Ho3|]. repeat split; congruence.
Qed.

Lemma set_position_identity v o : same_identity o (set_position v o).
Proof. repeat split. Qed.

Lemma set_duration_identity v o : same_identity o (set_duration v o).
Proof. repeat split. Qed.

Lemma cache_step_quiet st st' : quiet st st' -> cache_step st st'.
Proof.
  intros (Hr & Hh & Hu & Hev). repeat split; try assumption.
  - rewrite Hh. reflexivity.
  - intros l o Ho. rewrite Hh. exists o.
    split; [exact Ho | apply same_identity_refl].
Qed.

Lemma cache_step_update l f st :
  (forall o, same_identity o (f o)) ->
  cache_step st (state_of (update l f st)).
Proof.
  intros Hf. split; [reflexivity|]. split; [reflexivity|].
  split; [apply (handles_kept_insert _ _ _ Hf)|].
  exists []. simpl. rewrite app_nil_r. split; [reflexivity | constructor].
Qed.

Lemma cache_step_trans st1 st2 st3 :
  cache_step st1 st2 -> cache_step st2 st3 -> cache_step st1 st3.
Proof.
  intros (Hr1 & Hu1 & Hh1 & evs1 & Ht1 & Hq1) (Hr2 & Hu2 & Hh2 & evs2 & Ht2 & Hq2).
  split; [congruence|]. split; [congruence|].
  split; [exact (handles_kept_trans _ _ _ Hh1 Hh2)|].
  exists (evs1 ++ evs2). rewrite Ht2, Ht1, app_assoc.
  split; [reflexivity | apply Forall_app; split; assumption].
Qed.

(** ** The status demultiplexer, continued *)

Section StatusFrame.

Variable StringToNumber : string -> number.
Variable ToPrimitive : hint -> value -> primitive.

(** The state a status leaves, by the branch taken: either nothing but
    calls and warnings happened, or one cached value of the target object
    was written. *)
Lemma onStatus_step id msgType value st :
  let st' := state_of (onStatus StringToNumber ToPrimitive id msgType value st) in
  quiet st st' \/
  exists l f, get id st = Some l /\ (forall o, same_identity o (f o)) /\
              st' = state_of (update l f st).
Proof.
  unfold onStatus. rewrite state_of_bind. unfold gets. cbv beta iota zeta.
  destruct (mediaObjects_at id st) as [l|name|] eqn:Hat;
    [| |left; apply console_error_log_quiet].
  - apply mediaObjects_at_handle_inv in Hat. unfold call_if_set_on, assign.
    destruct (strict_eq_number msgType MEDIA_STATE).
    { left. rewrite state_of_bind.
      destruct (call_if_set_outcome statusCallback l [value] st) as [Hn|[e He]].
      - rewrite Hn. eapply quiet_trans; [apply call_if_set_quiet|].
        destruct (loose_eq_number StringToNumber ToPrimitive value MEDIA_STOPPED);
          [apply call_if_set_quiet | apply quiet_refl].
      - rewrite He. apply quiet_refl. }
    destruct (strict_eq_number msgType MEDIA_DURATION).
    { right. exists l, (set_duration value).
      split; [exact Hat|]. split; [apply set_duration_identity | reflexivity]. }
    destruct (strict_eq_number msgType MEDIA_ERROR);
      [left; apply call_if_set_quiet|].
    destruct (strict_eq_number msgType MEDIA_POSITION).
    { right.
      exists l, (set_position (VNum (Number StringToNumber ToPrimitive value))).
      split; [exact Hat|]. split; [apply set_position_identity | reflexivity]. }
    left. apply console_error_log_quiet.
  - left. unfold call_if_set_on, assign.
    destruct (strict_eq_number msgType MEDIA_STATE).
    { destruct (loose_eq_number StringToNumber ToPrimitive value MEDIA_STOPPED);
        apply quiet_refl. }
    destruct (strict_eq_number msgType MEDIA_DURATION);
      [apply quiet_emit; reflexivity|].
    destruct (strict_eq_number msgType MEDIA_ERROR); [apply quiet_refl|].
    destruct (strict_eq_number msgType MEDIA_POSITION);
      [apply quiet_emit; reflexivity|].
    apply console_error_log_quiet.
Qed.

Lemma onStatus_cache_step id msgType value st :
  cache_step st (state_of (onStatus StringToNumber ToPrimitive id msgType value st)).
Proof.
  destruct (onStatus_step id msgType value st) as [Hq|(l & f & _ & Hf & ->)].
  - apply cache_step_quiet, Hq.
  - apply cache_step_update, Hf.
Qed.

(** X4: whatever the id, the message type and the value, a status leaves
    the registry as it is, keeps the id, the source and the callbacks of
    every object, changes no object other than the one registered under the
    id, and issues no bridge command. *)
Theorem onStatus_frame id msgType value st :
  let st' := state_of (onStatus StringToNumber ToPrimitive id msgType value st) in
  mediaObjects st' = mediaObjects st /\
  handles_kept (heap st) (heap st') /\
  (forall l, get id st <> Some l -> heap st' !! l = heap st !! l) /\
  exists evs, trace st' = trace st ++ evs /\
              Forall (fun ev => is_exec ev = false) evs.
Proof.
  intros st'. subst st'.
  destruct (onStatus_cache_step id msgType value st) as (Hr & _ & Hh & Hev).
  split; [exact Hr|]. split; [exact Hh|]. split; [|exact Hev].
  intros l Hl.
  destruct (onStatus_step id msgType value st)
    as [(_ & Hq & _)|(l' & f & Hget & _ & ->)].
  - rewrite Hq. reflexivity.
  - simpl. apply list_lookup_insert_ne. intros ->. congruence.
Qed.

(** X1: a DURATION status for a registered handle stores the value as it
    came, without conversion, and [getDuration] then returns it; the cached
    position, the registry and the trace are as before. *)
Theorem onStatus_duration_getDuration id value st l o :
  get id st = Some l ->
  heap st !! l = Some o ->
  exists st',
    onStatus StringToNumber ToPrimitive id (VNum MEDIA_DURATION) value st = Normal tt st' /\
    getDuration l st' = Normal value st' /\
    cached_position l st' = Some (_position o) /\
    mediaObjects st' = mediaObjects st /\
    trace st' = trace st.
Proof.
  intros Hget Ho. unfold onStatus, bind, gets.
  rewrite (mediaObjects_at_handle _ _ _ Hget).
  change (strict_eq_number (VNum MEDIA_DURATION) MEDIA_STATE) with false.
  change (strict_eq_number (VNum MEDIA_DURATION) MEDIA_DURATION) with true.
  cbv beta iota. unfold assign. rewrite (update_Some _ _ _ _ Ho). eexists.
  split; [reflexivity|].
  assert (Hl : l < length (heap st)) by (apply lookup_lt_Some in Ho; exact Ho).
  split.
  - unfold getDuration, bind, deref, gets, ret. simpl.
    rewrite (list_lookup_total_insert_eq _ _ _ Hl). reflexivity.
  - split; [|split; reflexivity].
    unfold cached_position. simpl.
    rewrite (list_lookup_insert_eq _ _ _ Hl). reflexivity.
Qed.



End StatusFrame.

(** ** The command dispatcher, continued *)

Lemma reg_delete_sublist k r : reg_delete k r `sublist_of` r.
Proof.
  induction r as [|[k' l] r IH]; simpl; [constructor|].
  destruct (String.eqb k k'); [apply sublist_cons | apply sublist_skip]; exact IH.
Qed.

(** What a method leaves of a state: the heap, the identifier count, and a
    registry that has lost at most the entries of one key. *)
Lemma method_step m : m ∈ public_methods ->
  forall l args st,
    heap (state_of (m l args st)) = heap st /\
    uuid_calls (state_of (m l args st)) = uuid_calls st /\
    mediaObjects (state_of (m l args st)) `sublist_of` mediaObjects st.
Proof.
  intros Hm l args st. unfold public_methods in Hm.
  repeat (apply elem_of_cons in Hm as [->|Hm];
          [split; [reflexivity|]; split; [reflexivity|];
           first [reflexivity | apply reg_delete_sublist]|]).
  apply elem_of_nil in Hm. destruct Hm.
Qed.

(** X5: every method built by [mediaExec], called on an object of the heap,
    returns after issuing exactly one command to the service "Media", whose
    first argument is the id of the object; it changes no object, and the
    registry is either unchanged or has lost the entry of that id. *)
Theorem methods_issue_one_command m l o args st :
  m ∈ public_methods ->
  heap st !! l = Some o ->
  exists st' s e action rest,
    m l args st = Normal tt st' /\
    trace st' = trace st ++ [EvExec s e "Media" action (VStr (m_id o) :: rest)] /\
    heap st' = heap st /\
    (mediaObjects st' = mediaObjects st \/
     mediaObjects st' = reg_delete (m_id o) (mediaObjects st)).
Proof.
  intros Hm Ho. unfold public_methods in Hm.
  repeat (apply elem_of_cons in Hm as [->|Hm];
          [do 5 eexists; split; [reflexivity|]; simpl;
           rewrite ?(list_lookup_total_correct _ _ _ Ho);
           split; [reflexivity|]; split; [reflexivity|];
           first [left; reflexivity | right; reflexivity]|]).
  apply elem_of_nil in Hm. destruct Hm.
Qed.

(** X6: where a failure of a command is reported.  [stop], [pause],
    [startRecord], [stopRecord], [pauseRecord], [resumeRecord] and [release]
    give the bridge the error callback the object has when the method is
    called; [seekTo] gives its third argument, [getCurrentPosition] and
    [getCurrentAmplitude] their second; [play], [setVolume] and [setRate]
    give [null]: the bridge has nobody to report their failure to. *)
Theorem error_callback_routing l o args st :
  heap st !! l = Some o ->
  (forall m,
     m ∈ [stop; pause; startRecord; stopRecord; pauseRecord; resumeRecord;
          release] ->
     issues_error_callback m l args st (CbValue (errorCallback o))) /\
  issues_error_callback seekTo l args st (CbValue (arg args 2)) /\
  (forall m, m ∈ [getCurrentPosition; getCurrentAmplitude] ->
     issues_error_callback m l args st (CbValue (arg args 1))) /\
  (forall m, m ∈ [play; setVolume; setRate] ->
     issues_error_callback m l args st (CbValue VNull)).
Proof.
  intros Ho.
  assert (Hrun : forall (m : loc -> list value -> M unit) st' s e action a,
            m l args st = Normal tt st' ->
            trace st' = trace st ++ [EvExec s e "Media" action a] ->
            issues_error_callback m l args st e).
  { intros m st' s e action a H1 H2. exists st', s, action, a. split; assumption. }
  split; [|split; [|split]].
  - intros m Hm.
    repeat (apply elem_of_cons in Hm as [->|Hm];
            [eapply Hrun; [reflexivity|]; simpl;
             rewrite ?(list_lookup_total_correct _ _ _ Ho); reflexivity|]).
    apply elem_of_nil in Hm. destruct Hm.
  - eapply Hrun; [reflexivity|]. reflexivity.
  - intros m Hm.
    repeat (apply elem_of_cons in Hm as [->|Hm];
            [eapply Hrun; [reflexivity|]; reflexivity|]).
    apply elem_of_nil in Hm. destruct Hm.
  - intros m Hm.
    repeat (apply elem_of_cons in Hm as [->|Hm];
            [eapply Hrun; [reflexivity|]; reflexivity|]).
    apply elem_of_nil in Hm. destruct Hm.
Qed.

(** ** Callbacks applied by the bridge *)

Lemma apply_callback_cache_step cb args st :
  cache_step st (state_of (apply_callback cb args st)).
Proof.
  destruct cb as [v|player|player args'|player args']; simpl.
  - apply cache_step_quiet, call_quiet.
  - apply (cache_step_update player (set_position (VNum (num_of_Z 0)))).
    apply set_position_identity.
  - rewrite state_of_bind.
    change (update player (set_position (arg args 0)) st)
      with (Normal tt (state_of (update player (set_position (arg args 0)) st))).
    cbv iota. eapply cache_step_trans;
      [apply cache_step_update, set_position_identity|].
    apply cache_step_quiet, call_quiet.
  - rewrite state_of_bind.
    change (update player (set_position (arg args 0)) st)
      with (Normal tt (state_of (update player (set_position (arg args 0)) st))).
    cbv iota. eapply cache_step_trans;
      [apply cache_step_update, set_position_identity|].
    apply cache_step_quiet, call_quiet.
Qed.

(** X18: the three callbacks the module builds for the bridge (the success
    callbacks of [stop], [seekTo] and [getCurrentPosition]), applied to
    whatever arguments, leave the registry as it is, keep the id, source and
    callbacks of every object, change no object but the one they were built
    for, and issue no bridge command; besides the cached position they write,
    their only effect is at most one call, of the user's callback. *)
Theorem apply_callback_frame cb player args st :
  closure_player cb = Some player ->
  let st' := state_of (apply_callback cb args st) in
  mediaObjects st' = mediaObjects st /\
  handles_kept (heap st) (heap st') /\
  (forall l, l <> player -> heap st' !! l = heap st !! l) /\
  exists evs, trace st' = trace st ++ evs /\
              Forall (fun ev => is_exec ev = false) evs /\
              length evs <= 1.
Proof.
  intros Hcb st'. subst st'.
  destruct (apply_callback_cache_step cb args st) as (Hr & _ & Hh & _).
  split; [exact Hr|]. split; [exact Hh|].
  assert (Hcall : forall f a s,
            exists evs, trace (state_of (call f a s)) = trace s ++ evs /\
                        Forall (fun ev => is_exec ev = false) evs /\
                        length evs <= 1).
  { intros f a s. destruct f;
      try (exists []; simpl; rewrite app_nil_r; repeat split;
           [constructor | lia]).
    eexists [_]. simpl. repeat split; [repeat constructor | lia]. }
  destruct cb as [v|p|p args'|p args']; simpl in Hcb; [discriminate| | |];
    injection Hcb as ->.
  - split.
    + intros l Hl. simpl. apply list_lookup_insert_ne. congruence.
    + exists []. simpl. rewrite app_nil_r. repeat split; [constructor | lia].
  - simpl. rewrite state_of_bind.
    change (update player (set_position (arg args 0)) st)
      with (Normal tt (state_of (update player (set_position (arg args 0)) st))).
    cbv iota. split.
    + intros l Hl. rewrite call_heap. simpl.
      apply list_lookup_insert_ne. congruence.
    + match goal with
      | |- context [call ?f ?a ?s] =>
          destruct (Hcall f a s) as (evs & Ht & Hq & Hlen)
      end.
      exists evs. split; [exact Ht|]. split; assumption.
  - simpl. rewrite state_of_bind.
    change (update player (set_position (arg args 0)) st)
      with (Normal tt (state_of (update player (set_position (arg args 0)) st))).
    cbv iota. split.
    + intros l Hl. rewrite call_heap. simpl.
      apply list_lookup_insert_ne. congruence.
    + match goal with
      | |- context [call ?f ?a ?s] =>
          destruct (Hcall f a s) as (evs & Ht & Hq & Hlen)
      end.
      exists evs. split; [exact Ht|]. split; assumption.
Qed.

(** ** The constructor, continued *)

Ltac in_list :=
  repeat first [apply list_elem_of_here | apply list_elem_of_further].

Lemma checkArgs_sFFFF_cases src sc ec stc cc st :
  (checkArgs sFFFF [src; sc; ec; stc; cc] st = Normal tt st /\
   is_string src = true /\ fits OptFunction sc = true /\
   fits OptFunction ec = true /\ fits OptFunction stc = true /\
   fits OptFunction cc = true) \/
  (exists v, checkArgs sFFFF [src; sc; ec; stc; cc] st = Throw (TypeError v) st /\
             v ∈ [src; sc; ec; stc; cc] /\
             (is_string src = false \/ fits OptFunction sc = false \/
              fits OptFunction ec = false \/ fits OptFunction stc = false \/
              fits OptFunction cc = false)).
Proof.
  unfold sFFFF, checkArgs, arg, tail, nth.
  change (fits ReqString src) with (is_string src).
  destruct (is_string src) eqn:E1;
    [|right; exists src; split; [reflexivity|]; split; [in_list | tauto]].
  destruct (fits OptFunction sc) eqn:E2;
    [|right; exists sc; split; [reflexivity|]; split; [in_list | tauto]].
  destruct (fits OptFunction ec) eqn:E3;
    [|right; exists ec; split; [reflexivity|]; split; [in_list | tauto]].
  destruct (fits OptFunction stc) eqn:E4;
    [|right; exists stc; split; [reflexivity|]; split; [in_list | tauto]].
  destruct (fits OptFunction cc) eqn:E5;
    [|right; exists cc; split; [reflexivity|]; split; [in_list | tauto]].
  left. repeat split.
Qed.

(** X7: when the source is not a string, or one of the four callbacks is
    neither a function nor [null] nor [undefined], the constructor ends in a
    [TypeError] about one of its arguments before doing anything: no
    identifier is drawn, no object is created, the registry is unchanged and
    no "create" command is issued. *)
Theorem new_Media_rejects createUUID src sc ec stc cc st :
  is_string src = false \/ fits OptFunction sc = false \/
  fits OptFunction ec = false \/ fits OptFunction stc = false \/
  fits OptFunction cc = false ->
  exists v st',
    new_Media createUUID src sc ec stc cc st = Throw (TypeError v) st' /\
    v ∈ [src; sc; ec; stc; cc] /\
    mediaObjects st' = mediaObjects st /\
    heap st' = heap st /\
    uuid_calls st' = uuid_calls st /\
    commands (trace st') = commands (trace st).
Proof.
  intros Hbad.
  destruct (checkArgs_sFFFF_cases src sc ec stc cc st)
    as [(_ & H1 & H2 & H3 & H4 & H5)|(v & Hrun & Hin & _)].
  - rewrite H1, H2, H3, H4, H5 in Hbad.
    destruct Hbad as [?|[?|[?|[?|?]]]]; discriminate.
  - exists v, st. unfold new_Media, bind. rewrite Hrun. repeat split.
    exact Hin.
Qed.

(** ** Invariants of the reachable states *)

(** The invariant only looks at the registry, the identifier count and the
    identity of the objects: it survives a step that shrinks the first,
    does not lower the second and keeps the third. *)
Lemma module_invariant_frame createUUID st st' :
  mediaObjects st' `sublist_of` mediaObjects st ->
  uuid_calls st <= uuid_calls st' ->
  handles_kept (heap st) (heap st') ->
  module_invariant createUUID st -> module_invariant createUUID st'.
Proof.
  intros Hsub Hle [_ Hkept] ([Hnd Hobj] & Hdrawn & Htyped).
  assert (Hkeys : reg_keys (mediaObjects st') `sublist_of`
                  reg_keys (mediaObjects st))
    by (unfold reg_keys; apply fmap_sublist, Hsub).
  split; [|split].
  - split; [exact (sublist_NoDup _ _ Hnd Hkeys)|].
    intros k l Hin. apply (fun H => elem_of_sublist _ _ _ H Hsub) in Hin.
    destruct (Hobj k l Hin) as (o & Ho & Hid).
    destruct (Hkept l o Ho) as (o' & Ho' & Hid' & _).
    exists o'. split; [exact Ho' | congruence].
  - intros k Hk. apply (fun H => elem_of_sublist _ _ _ H Hkeys) in Hk.
    destruct (Hdrawn k Hk) as (n & Hn & ->). exists n. split; [lia | reflexivity].
  - intros k l Hget. apply reg_lookup_Some in Hget.
    apply (fun H => elem_of_sublist _ _ _ H Hsub) in Hget.
    apply (reg_lookup_elem _ _ _ Hnd) in Hget.
    destruct (Htyped k l Hget) as (o & Ho & Hs & He & Hst).
    destruct (Hkept l o Ho) as (o' & Ho' & _ & _ & Is & Ie & Ist).
    exists o'. split; [exact Ho'|]. unfold callbacks_typed.
    rewrite Is, Ie, Ist. repeat split; assumption.
Qed.

Lemma module_invariant_cache_step createUUID st st' :
  cache_step st st' ->
  module_invariant createUUID st -> module_invariant createUUID st'.
Proof.
  intros (Hr & Hu & Hh & _). apply module_invariant_frame.
  - rewrite Hr. reflexivity.
  - rewrite Hu. reflexivity.
  - exact Hh.
Qed.

Lemma module_invariant_empty createUUID st :
  mediaObjects st = [] -> module_invariant createUUID st.
Proof.
  intros Hnil. unfold module_invariant, registry_wf, ids_drawn,
    registered_callbacks_typed, get. rewrite Hnil. simpl.
  split; [split; [apply NoDup_nil_2|]|split].
  - intros k l Hin. apply elem_of_nil in Hin. destruct Hin.
  - intros k Hin. apply elem_of_nil in Hin. destruct Hin.
  - intros k l Hget. discriminate.
Qed.

Lemma forceStop_registry st : mediaObjects (state_of (forceStop st)) = [].
Proof.
  destruct (forceStop_run st) as (st' & Hrun & _ & Hnil).
  rewrite Hrun. exact Hnil.
Qed.

Lemma new_Media_invariant createUUID src sc ec stc cc st :
  module_invariant createUUID st ->
  module_invariant createUUID
    (state_of (new_Media createUUID src sc ec stc cc st)).
Proof.
  intros (Hwf & Hdrawn & Htyped). split; [apply new_Media_wf, Hwf|].
  unfold new_Media, bind.
  destruct (checkArgs_sFFFF_cases src sc ec stc cc st)
    as [(-> & _ & Hsc & Hec & Hstc & _)|(v & -> & _)];
    [|split; assumption].
  simpl. split.
  - intros k Hk. simpl in Hk. apply reg_set_keys in Hk as [->|Hk].
    + exists (uuid_calls st). simpl. split; [lia | reflexivity].
    + destruct (Hdrawn k Hk) as (n & Hn & ->). exists n. simpl.
      split; [lia | reflexivity].
  - intros k l. unfold get. simpl.
    destruct (String.eqb_spec (createUUID (uuid_calls st)) k) as [<-|Hne].
    + rewrite reg_lookup_set_eq. intros [= <-]. eexists.
      split; [apply list_lookup_middle; reflexivity|].
      repeat split; assumption.
    + rewrite (reg_lookup_set_ne _ _ _ _ Hne). intros Hget.
      destruct (Htyped k l Hget) as (o & Ho & Ht). exists o.
      split; [apply lookup_app_l_Some, Ho | exact Ht].
Qed.

Section ReachableProperties.

Variable createUUID : nat -> string.
Variable StringToNumber : string -> number.
Variable ToPrimitive : hint -> value -> primitive.

Lemma reachable_module_invariant st :
  reachable createUUID StringToNumber ToPrimitive st -> module_invariant createUUID st.
Proof.
  intros Hreach.
  induction Hreach as
    [b|st src sc ec stc cc _ IH|st m this args _ IH Hm|st _ IH
    |st id msgType value _ IH|st msg _ IH|st cb args _ IH].
  - apply module_invariant_empty. reflexivity.
  - apply new_Media_invariant, IH.
  - destruct (method_step m Hm this args st) as (Hh & Hu & Hr).
    apply (module_invariant_frame createUUID st); try assumption.
    + rewrite Hu. reflexivity.
    + rewrite Hh. apply handles_kept_refl.
  - apply module_invariant_empty, forceStop_registry.
  - exact (module_invariant_cache_step _ _ _
             (onStatus_cache_step StringToNumber ToPrimitive id msgType value st) IH).
  - unfold onMessageFromNative.
    destruct (String.eqb (action msg) "status"); [|exact IH].
    destruct (status msg) as [s|]; [|exact IH].
    exact (module_invariant_cache_step _ _ _
             (onStatus_cache_step StringToNumber ToPrimitive _ _ _ st) IH).
  - exact (module_invariant_cache_step _ _ _
             (apply_callback_cache_step cb args st) IH).
Qed.

(** X8: in every state the module reaches from the moment it is loaded,
    through the constructor, the methods, [forceStop], status events,
    channel messages and callbacks applied by the bridge, the registry has
    one entry per id, each entry refers to an object that carries that id,
    every registered id was drawn by [utils.createUUID], and the callbacks
    of every registered object are functions or unset. *)
Theorem reachable_invariant st :
  reachable createUUID StringToNumber ToPrimitive st ->
  registry_wf st /\ ids_drawn createUUID st /\ registered_callbacks_typed st.
Proof. apply reachable_module_invariant. Qed.

(** X9: if [utils.createUUID] never draws an identifier twice, then in
    every reachable state the identifier the next constructor call will
    draw is in no entry of the registry: a new handle never takes the place
    of a registered one. *)
Theorem reachable_next_id_unused st :
  (forall m n, createUUID m = createUUID n -> m = n) ->
  reachable createUUID StringToNumber ToPrimitive st ->
  (createUUID (uuid_calls st) ∉ reg_keys (mediaObjects st)) /\
  get (createUUID (uuid_calls st)) st = None.
Proof.
  intros Huniq Hreach.
  destruct (reachable_module_invariant st Hreach) as (_ & Hdrawn & _).
  pose proof (createUUID_fresh createUUID Huniq st Hdrawn) as Hfresh.
  split; [exact Hfresh | apply reg_lookup_None, Hfresh].
Qed.

End ReachableProperties.

(** ** Operations in sequence *)

Lemma reg_delete_set k l r :
  k ∉ reg_keys r -> reg_delete k (reg_set k l r) = r.
Proof.
  unfold reg_keys. induction r as [|[k0 l0] r IH]; simpl.
  - intros _. rewrite String.eqb_refl. reflexivity.
  - rewrite not_elem_of_cons. intros [Hne Hnin].
    destruct (String.eqb_spec k k0) as [->|_]; [contradiction|]. simpl.
    destruct (String.eqb_spec k k0) as [->|_]; [contradiction|].
    rewrite (IH Hnin). reflexivity.
Qed.

Lemma reg_delete_twice k r : reg_delete k (reg_delete k r) = reg_delete k r.
Proof. apply reg_delete_notin, reg_lookup_None, reg_lookup_delete_eq. Qed.

Section Sequences.

Variable createUUID : nat -> string.
Variable StringToNumber : string -> number.
Variable ToPrimitive : hint -> value -> primitive.

(** X10: once [release] has been called on a handle, a status for the id of
    the handle finds no entry, whatever its type and value and whether or
    not the bridge has answered the release: no callback is called, no
    command is issued and no cached value changes; when the id is not a name
    inherited from [Object.prototype], as no identifier of
    [utils.createUUID] is, the event is only reported to [console.error]. *)
Theorem release_then_status_dropped l o args msgType value st :
  heap st !! l = Some o ->
  exists st1 st2 evs,
    release l args st = Normal tt st1 /\
    onStatus StringToNumber ToPrimitive (m_id o) msgType value st1 =
      Normal tt st2 /\
    heap st2 = heap st /\
    trace st2 = trace st ++
      [EvExec (CbValue VUndefined) (CbValue (errorCallback o)) "Media"
              "release" [VStr (m_id o)]] ++ evs /\
    Forall (fun ev => is_call ev = false /\ is_exec ev = false) evs /\
    (inherited_name (m_id o) = false ->
     evs = if console_error st
           then [EvConsoleError
                   "Received Media.onStatus callback for unknown media :: "
                   (VStr (m_id o))]
           else []).
Proof.
  intros Ho. rewrite (release_call _ _ _ _ Ho).
  set (st1 := with_trace _ _).
  assert (Hget : get (m_id o) st1 = None)
    by (unfold get, st1; simpl; apply reg_lookup_delete_eq).
  destruct (onStatus_no_entry StringToNumber ToPrimitive (m_id o) msgType
              value st1 Hget)
    as (st2 & evs & Hrun & _ & Hheap & Htrace & Hq & Hevs).
  exists st1, st2, evs. split; [reflexivity|]. split; [exact Hrun|].
  split; [rewrite Hheap; reflexivity|].
  split; [rewrite Htrace; unfold st1; simpl; rewrite <- app_assoc; reflexivity|].
  split; [exact Hq | exact Hevs].
Qed.


(** X12: [release] can be called again on a released handle: the second
    call issues the release command once more and finds nothing to delete;
    the registry is as the first call left it. *)
Theorem release_twice l o args args' st :
  heap st !! l = Some o ->
  exists st1 st2,
    release l args st = Normal tt st1 /\
    release l args' st1 = Normal tt st2 /\
    mediaObjects st2 = mediaObjects st1 /\
    heap st2 = heap st /\
    exists c, trace st1 = trace st ++ [c] /\ trace st2 = trace st ++ [c; c].
Proof.
  intros Ho. rewrite (release_call _ _ _ _ Ho). eexists. eexists.
  split; [reflexivity|].
  rewrite (release_call l o); [|exact Ho].
  split; [reflexivity|]. simpl. rewrite reg_delete_twice.
  split; [reflexivity|]. split; [reflexivity|].
  eexists. split; [reflexivity|]. rewrite <- app_assoc. reflexivity.
Qed.

(** X13: the success callback of [stop] holds the object, not its registry
    entry: when [stop] and then [release] have been called on a handle and
    the bridge afterwards reports the success of the stop, the cached
    position of the object becomes 0 although the handle is no longer
    registered. *)
Theorem stop_success_after_release l o p st :
  heap st !! l = Some o ->
  exists st1 st2 st3 e a,
    stop l [] st = Normal tt st1 /\
    trace st1 = trace st ++ [EvExec (CbStopSuccess l) e "Media"
                                    "stopPlayingAudio" a] /\
    release l [] st1 = Normal tt st2 /\
    apply_callback (CbStopSuccess l) p st2 = Normal tt st3 /\
    get (m_id o) st3 = None /\
    cached_position l st3 = Some (VNum (num_of_Z 0)).
Proof.
  intros Ho. rewrite (stop_call _ _ _ _ Ho). do 5 eexists.
  split; [reflexivity|]. split; [reflexivity|].
  rewrite (release_call l o); [|exact Ho]. split; [reflexivity|].
  unfold apply_callback. rewrite (update_Some l o); [|exact Ho].
  split; [reflexivity|]. split.
  - unfold get. simpl. apply reg_lookup_delete_eq.
  - unfold cached_position. simpl. rewrite list_lookup_insert_eq.
    + reflexivity.
    + apply lookup_lt_Some in Ho. exact Ho.
Qed.

(** X14: constructing a handle under an id that is not registered and
    releasing it brings the registry back to what it was; the two calls
    issue the "create" and the "release" command of that id, in this
    order. *)
Theorem new_Media_then_release src sc ec stc cc st :
  is_string src = true ->
  fits OptFunction sc = true ->
  fits OptFunction ec = true ->
  fits OptFunction stc = true ->
  fits OptFunction cc = true ->
  createUUID (uuid_calls st) ∉ reg_keys (mediaObjects st) ->
  exists this st1 st2,
    new_Media createUUID src sc ec stc cc st = Normal this st1 /\
    get (createUUID (uuid_calls st)) st1 = Some this /\
    release this [] st1 = Normal tt st2 /\
    mediaObjects st2 = mediaObjects st /\
    trace st2 = trace st ++
      [EvExec (CbValue cc) (CbValue ec) "Media" "create"
              [VStr (createUUID (uuid_calls st)); src];
       EvExec (CbValue VUndefined) (CbValue ec) "Media" "release"
              [VStr (createUUID (uuid_calls st))]].
Proof.
  intros Hsrc Hsc Hec Hstc Hcc Hfresh. unfold new_Media, bind.
  rewrite (checkArgs_sFFFF_typed _ _ _ _ _ _ Hsrc Hsc Hec Hstc Hcc).
  do 3 eexists. split; [reflexivity|]. simpl.
  split; [apply reg_lookup_set_eq|].
  erewrite release_call; [|simpl; apply list_lookup_middle; reflexivity].
  split; [reflexivity|]. simpl. split.
  - apply reg_delete_set, Hfresh.
  - rewrite <- app_assoc. reflexivity.
Qed.

End Sequences.

(** ** Callbacks handed to the bridge, and channel messages *)

(** X15: where the success of a command is reported.  [play] and
    [getCurrentAmplitude] give the bridge their first argument as success
    callback; [pause], the four recording methods, [setVolume] and
    [setRate] give [null], and [release] gives [undefined]: their success
    is reported to nobody; [stop], [seekTo] and [getCurrentPosition] give a
    callback built by the module. *)
Theorem success_callback_routing l args st :
  (forall m, m ∈ [play; getCurrentAmplitude] ->
     issues_success_callback m l args st (CbValue (arg args 0))) /\
  (forall m,
     m ∈ [pause; startRecord; stopRecord; pauseRecord; resumeRecord;
          setVolume; setRate] ->
     issues_success_callback m l args st (CbValue VNull)) /\
  issues_success_callback release l args st (CbValue VUndefined) /\
  issues_success_callback stop l args st (CbStopSuccess l) /\
  issues_success_callback seekTo l args st (CbSeekToSuccess l args) /\
  issues_success_callback getCurrentPosition l args st
    (CbGetCurrentPositionSuccess l args).
Proof.
  assert (Hrun : forall (m : loc -> list value -> M unit) st' s e action a,
            m l args st = Normal tt st' ->
            trace st' = trace st ++ [EvExec s e "Media" action a] ->
            issues_success_callback m l args st s).
  { intros m st' s e action a H1 H2. exists st', e, action, a. split; assumption. }
  split; [|split; [|repeat split]].
  - intros m Hm.
    repeat (apply elem_of_cons in Hm as [->|Hm];
            [eapply Hrun; [reflexivity|]; reflexivity|]).
    apply elem_of_nil in Hm. destruct Hm.
  - intros m Hm.
    repeat (apply elem_of_cons in Hm as [->|Hm];
            [eapply Hrun; [reflexivity|]; reflexivity|]).
    apply elem_of_nil in Hm. destruct Hm.
  - eapply Hrun; [reflexivity|]. reflexivity.
  - eapply Hrun; [reflexivity|]. reflexivity.
  - eapply Hrun; [reflexivity|]. reflexivity.
  - eapply Hrun; [reflexivity|]. reflexivity.
Qed.

(** X16: when the user gave a function as callback, the success callback
    of [seekTo] (of [getCurrentPosition]) applied to a value [p] returns
    normally, having made [p], as it came, the cached position of the
    object and called the function once, with [p]; the rest of the object,
    the other objects and the registry are as they were. *)
Theorem position_callbacks_report l o args p f st :
  heap st !! l = Some o ->
  forall cb,
    (cb = CbSeekToSuccess l args /\ arg args 1 = VFun f) \/
    (cb = CbGetCurrentPositionSuccess l args /\ arg args 0 = VFun f) ->
    exists st' o',
      apply_callback cb p st = Normal tt st' /\
      cached_position l st' = Some (arg p 0) /\
      heap st' = <[l := o']> (heap st) /\
      _position o' = arg p 0 /\
      _duration o' = _duration o /\
      same_identity o o' /\
      mediaObjects st' = mediaObjects st /\
      trace st' = trace st ++ [EvCall f [arg p 0]].
Proof.
  intros Ho cb Hcb.
  assert (Hl : l < length (heap st)) by (apply lookup_lt_Some in Ho; exact Ho).
  exists (with_trace (trace st ++ [EvCall f [arg p 0]])
            (with_heap (<[l := set_position (arg p 0) o]> (heap st)) st)),
         (set_position (arg p 0) o).
  split.
  - destruct Hcb as [[-> Hf]|[-> Hf]].
    + rewrite (seekTo_success_apply _ _ _ _ _ Ho), Hf. reflexivity.
    + rewrite (getCurrentPosition_success_apply _ _ _ _ _ Ho), Hf.
      reflexivity.
  - split.
    + unfold cached_position. simpl.
      rewrite (list_lookup_insert_eq _ _ _ Hl). reflexivity.
    + repeat split.
Qed.

Section Messages.

Variable StringToNumber : string -> number.
Variable ToPrimitive : hint -> value -> primitive.

(** X17: a channel message that is not a well-formed status message is
    thrown on and changes nothing: an [Error] naming the action when the
    action is not "status", a [TypeError] when the action is "status" and
    the message has no status object. *)
Theorem onMessageFromNative_malformed msg st :
  action msg <> "status" \/ status msg = None ->
  exists e,
    onMessageFromNative StringToNumber ToPrimitive msg st = Throw e st /\
    (action msg <> "status" ->
     e = Error ("Unknown media action" ++ action msg)%string) /\
    (action msg = "status" -> e = TypeError VUndefined).
Proof.
  intros Hbad. unfold onMessageFromNative.
  destruct (String.eqb_spec (action msg) "status") as [Hact|Hact].
  - destruct Hbad as [Hne|Hnone]; [contradiction|]. rewrite Hnone.
    eexists. split; [reflexivity|]. split; [contradiction | reflexivity].
  - eexists. split; [reflexivity|]. split; [reflexivity | contradiction].
Qed.

End Messages.

(** ** The further properties on the sample states *)

Lemma onStatus_duration_getDuration_sample :
  exists st',
    onStatus digits_StringToNumber sample_ToPrimitive "uuid-0" (VNum MEDIA_DURATION) (VStr "12.5")
             one_handle = Normal tt st' /\
    getDuration 0 st' = Normal (VStr "12.5") st' /\
    cached_position 0 st' = Some (VNum (num_of_Z 5)).
Proof.
  destruct (onStatus_duration_getDuration digits_StringToNumber sample_ToPrimitive "uuid-0"
              (VStr "12.5") one_handle 0 song eq_refl eq_refl)
    as (st' & Hrun & Hd & Hp & _).
  exists st'. split; [exact Hrun|]. split; [exact Hd | exact Hp].
Defined.



Lemma pause_public : pause ∈ public_methods.
Proof.
  unfold public_methods. do 3 apply list_elem_of_further.
  apply list_elem_of_here.
Defined.

Lemma methods_issue_one_command_sample :
  exists st' s e action rest,
    pause 0 [] one_handle = Normal tt st' /\
    trace st' = [EvExec s e "Media" action (VStr "uuid-0" :: rest)] /\
    heap st' = heap one_handle.
Proof.
  destruct (methods_issue_one_command pause 0 song [] one_handle pause_public
              eq_refl)
    as (st' & s & e & action & rest & Hrun & Htrace & Hheap & _).
  exists st', s, e, action, rest.
  split; [exact Hrun|]. split; [exact Htrace | exact Hheap].
Defined.

Lemma error_callback_routing_sample :
  issues_error_callback seekTo 0 [VNum (num_of_Z 30); VFun 7; VFun 8]
    one_handle (CbValue (VFun 8)).
Proof.
  exact (proj1 (proj2 (error_callback_routing 0 song
                         [VNum (num_of_Z 30); VFun 7; VFun 8] one_handle
                         eq_refl))).
Defined.

Lemma new_Media_rejects_sample :
  exists v st',
    new_Media sample_createUUID (VNum (num_of_Z 1)) VUndefined VUndefined
              VUndefined VUndefined one_handle = Throw (TypeError v) st' /\
    mediaObjects st' = mediaObjects one_handle /\
    uuid_calls st' = 1.
Proof.
  destruct (new_Media_rejects sample_createUUID (VNum (num_of_Z 1)) VUndefined
              VUndefined VUndefined VUndefined one_handle (or_introl eq_refl))
    as (v & st' & Hrun & _ & Hreg & _ & Hu & _).
  exists v, st'. split; [exact Hrun|]. split; [exact Hreg | exact Hu].
Defined.

Lemma memo_constructed_reachable :
  reachable sample_createUUID digits_StringToNumber sample_ToPrimitive
    (state_of (new_Media sample_createUUID (VStr "memo.wav") VUndefined
                 (VFun 4) VNull VUndefined initial_state)).
Proof. apply reachable_new, (reachable_loaded _ _ _ true). Defined.

Lemma reachable_invariant_sample :
  registry_wf
    (state_of (new_Media sample_createUUID (VStr "memo.wav") VUndefined
                 (VFun 4) VNull VUndefined initial_state)).
Proof.
  exact (proj1 (reachable_invariant sample_createUUID digits_StringToNumber sample_ToPrimitive _
                  memo_constructed_reachable)).
Defined.

Lemma reachable_next_id_unused_sample :
  get "uuid-1"
    (state_of (new_Media sample_createUUID (VStr "memo.wav") VUndefined
                 (VFun 4) VNull VUndefined initial_state)) = None.
Proof.
  exact (proj2 (reachable_next_id_unused sample_createUUID
                  digits_StringToNumber sample_ToPrimitive _ sample_createUUID_unique
                  memo_constructed_reachable)).
Defined.

Lemma release_then_status_dropped_sample :
  exists st1 st2,
    release 0 [] one_handle = Normal tt st1 /\
    onStatus digits_StringToNumber sample_ToPrimitive "uuid-0"
             (VNum MEDIA_STATE) (VNum MEDIA_STOPPED) st1 = Normal tt st2 /\
    trace st2 =
      [EvExec (CbValue VUndefined) (CbValue (VFun 2)) "Media" "release"
              [VStr "uuid-0"];
       EvConsoleError "Received Media.onStatus callback for unknown media :: "
                      (VStr "uuid-0")].
Proof.
  destruct (release_then_status_dropped digits_StringToNumber
              sample_ToPrimitive 0 song [] (VNum MEDIA_STATE)
              (VNum MEDIA_STOPPED) one_handle eq_refl)
    as (st1 & st2 & evs & H1 & H2 & _ & Htrace & _ & Hevs).
  exists st1, st2. split; [exact H1|]. split; [exact H2|].
  rewrite Htrace, (Hevs eq_refl). reflexivity.
Defined.

Lemma release_twice_sample :
  exists st1 st2,
    release 0 [] one_handle = Normal tt st1 /\
    release 0 [] st1 = Normal tt st2 /\
    mediaObjects st2 = mediaObjects st1.
Proof.
  destruct (release_twice 0 song [] [] one_handle eq_refl)
    as (st1 & st2 & H1 & H2 & Hreg & _).
  exists st1, st2. split; [exact H1|]. split; [exact H2 | exact Hreg].
Defined.

Lemma stop_success_after_release_sample :
  exists st3,
    get "uuid-0" st3 = None /\
    cached_position 0 st3 = Some (VNum (num_of_Z 0)).
Proof.
  destruct (stop_success_after_release 0 song [] one_handle eq_refl)
    as (_ & _ & st3 & _ & _ & _ & _ & _ & _ & Hget & Hpos).
  exists st3. split; [exact Hget | exact Hpos].
Defined.

Lemma new_Media_then_release_sample :
  exists this st1 st2,
    new_Media sample_createUUID (VStr "memo.wav") VUndefined (VFun 4) VNull
              VUndefined one_handle = Normal this st1 /\
    release this [] st1 = Normal tt st2 /\
    mediaObjects st2 = mediaObjects one_handle.
Proof.
  assert (Hfresh : sample_createUUID (uuid_calls one_handle) ∉
                   reg_keys (mediaObjects one_handle)).
  { simpl. intros Hin. apply elem_of_cons in Hin as [Heq|Hin];
      [discriminate Heq | apply elem_of_nil in Hin; exact Hin]. }
  destruct (new_Media_then_release sample_createUUID (VStr "memo.wav")
              VUndefined (VFun 4) VNull VUndefined one_handle
              eq_refl eq_refl eq_refl eq_refl eq_refl Hfresh)
    as (this & st1 & st2 & H1 & _ & H2 & Hreg & _).
  exists this, st1, st2. split; [exact H1|]. split; [exact H2 | exact Hreg].
Defined.

Lemma position_callbacks_report_sample :
  exists st',
    apply_callback (CbGetCurrentPositionSuccess 0 [VFun 7])
                   [VNum (num_of_Z 30)] one_handle = Normal tt st' /\
    cached_position 0 st' = Some (VNum (num_of_Z 30)) /\
    getDuration 0 st' = Normal (VNum (num_of_Z 120)) st' /\
    trace st' = [EvCall 7 [VNum (num_of_Z 30)]].
Proof.
  destruct (position_callbacks_report 0 song [VFun 7] [VNum (num_of_Z 30)] 7
              one_handle eq_refl (CbGetCurrentPositionSuccess 0 [VFun 7])
              (or_intror (conj eq_refl eq_refl)))
    as (st' & o' & Hrun & Hpos & Hheap & _ & Hdur & _ & _ & Htr).
  exists st'. split; [exact Hrun|]. split; [exact Hpos|]. split; [|exact Htr].
  unfold getDuration, bind, deref, gets, ret. rewrite Hheap. simpl.
  rewrite Hdur. reflexivity.
Defined.

Lemma onMessageFromNative_malformed_sample :
  exists e,
    onMessageFromNative digits_StringToNumber sample_ToPrimitive (mkMessage "status" None)
                        one_handle = Throw e one_handle /\
    e = TypeError VUndefined.
Proof.
  destruct (onMessageFromNative_malformed digits_StringToNumber sample_ToPrimitive
              (mkMessage "status" None) one_handle (or_intror eq_refl))
    as (e & Hrun & _ & He).
  exists e. split; [exact Hrun | exact (He eq_refl)].
Defined.

Lemma apply_callback_frame_sample :
  let st' := state_of (apply_callback (CbSeekToSuccess 1 [VNull; VFun 7])
                                      [VNum (num_of_Z 9)] two_handles) in
  mediaObjects st' = mediaObjects two_handles /\
  heap st' !! 0 = Some song /\
  trace st' = [EvCall 7 [VNum (num_of_Z 9)]].
Proof.
  destruct (apply_callback_frame (CbSeekToSuccess 1 [VNull; VFun 7]) 1
              [VNum (num_of_Z 9)] two_handles eq_refl)
    as (Hreg & _ & Hother & _).
  split; [exact Hreg|]. split; [|reflexivity].
  rewrite Hother; [reflexivity | discriminate].
Defined.
